(** * Abductive differential diagnosis (app.py): a shallow embedding

    The Python program keeps three pieces of global state: the two label
    dictionaries [disease_label_map] and [symptom_label_map], and the Prolog
    clause store holding the [has_symptom/2] facts.  Python strings are
    modelled as Rocq strings whose characters are code points below 256,
    insertion-ordered dictionaries as association lists with unique keys,
    Python sets as [gset string], and the clause store as the list of
    asserted facts in assertion order.  The entity extractor and the sheet
    reader are outside: [extract_symptoms] starts from the entities of
    [doc.ents], the load from the rows of the sheet. *)

From Stdlib Require Import Ascii String QArith.
From stdpp Require Import gmap strings list sorting.

#[local] Set Warnings "-clear-no-such-hyp".

Local Open Scope string_scope.
Local Open Scope nat_scope.
Local Open Scope list_scope.

(** ** Characters and strings, as Python's [str] treats them *)

Module PyStr.

Definition code (c : ascii) : nat := nat_of_ascii c.

Definition between (lo hi n : nat) : bool := (lo <=? n)%nat && (n <=? hi)%nat.

(** [str.isspace] on code points below 256: TAB..CR, FS..US, space, NEL
    and the no-break space. *)
Definition is_space (c : ascii) : bool :=
  between 9 13 (code c) || between 28 32 (code c)
  || (code c =? 133)%nat || (code c =? 160)%nat.

(** Upper-case letters of Latin-1: A..Z, and 0xC0..0xDE but the
    multiplication sign. *)
Definition is_upper (c : ascii) : bool :=
  between 65 90 (code c)
  || (between 192 222 (code c) && negb (code c =? 215)%nat).

Definition lower_char (c : ascii) : ascii :=
  if is_upper c then ascii_of_nat (code c + 32) else c.

(** The character class [[a-z0-9_]]. *)
Definition is_slug_char (c : ascii) : bool :=
  between 97 122 (code c) || between 48 57 (code c) || (code c =? 95)%nat.

Definition is_ascii (c : ascii) : bool := (code c <? 128)%nat.

Fixpoint smap (f : ascii -> ascii) (s : string) : string :=
  match s with
  | EmptyString => EmptyString
  | String c s' => String (f c) (smap f s')
  end.

Fixpoint sfilter (p : ascii -> bool) (s : string) : string :=
  match s with
  | EmptyString => EmptyString
  | String c s' => if p c then String c (sfilter p s') else sfilter p s'
  end.

Fixpoint sall (p : ascii -> bool) (s : string) : bool :=
  match s with
  | EmptyString => true
  | String c s' => p c && sall p s'
  end.

(** [text.lower()] *)
Definition lower (s : string) : string := smap lower_char s.

(** [text.replace(a, b)] for one-character [a] and [b]. *)
Definition replace_char (a b : ascii) (s : string) : string :=
  smap (fun c => if Ascii.eqb c a then b else c) s.

Fixpoint lstrip (s : string) : string :=
  match s with
  | EmptyString => EmptyString
  | String c s' => if is_space c then lstrip s' else s
  end.

Fixpoint rstrip (s : string) : string :=
  match s with
  | EmptyString => EmptyString
  | String c s' =>
      match rstrip s' with
      | EmptyString => if is_space c then EmptyString else String c EmptyString
      | r => String c r
      end
  end.

(** [text.strip()] *)
Definition strip (s : string) : string := rstrip (lstrip s).

(** [text.startswith(p)] *)
Fixpoint startswith (p s : string) : bool :=
  match p, s with
  | EmptyString, _ => true
  | String a p', String b s' => Ascii.eqb a b && startswith p' s'
  | String _ _, EmptyString => false
  end.

(** [needle in hay] *)
Fixpoint contains (needle hay : string) : bool :=
  startswith needle hay
  || match hay with
     | EmptyString => false
     | String _ hay' => contains needle hay'
     end.

(** [text.split(sep)] for a one-character separator: never empty. *)
Fixpoint split (sep : ascii) (s : string) : list string :=
  match s with
  | EmptyString => [EmptyString]
  | String c s' =>
      if Ascii.eqb c sep then EmptyString :: split sep s'
      else match split sep s' with
           | h :: t => String c h :: t
           | [] => [String c EmptyString]
           end
  end.

(** [re.sub(r'^UMLS:', '', text, flags=re.IGNORECASE)]: one optional
    prefix is removed at the start of the text. *)
Definition drop_umls_prefix (s : string) : string :=
  match s with
  | String u (String m (String l (String s0 (String colon rest)))) =>
      if String.eqb
           (lower (String u (String m (String l (String s0 (String colon EmptyString))))))
           "umls:"
      then rest else s
  | _ => s
  end.

End PyStr.

Import PyStr.

(** ** [slugify] and [as_pystr] *)

Definition slugify (text : string) : string :=
  let text := strip text in
  let text := drop_umls_prefix text in
  let text := lower (replace_char " " "_" (replace_char ":" "_" text)) in
  let text := sfilter is_slug_char text in
  if startswith "umls_" text then text else "umls_" +:+ text.

(** [as_pystr] on a [str]: the characters outside ASCII are dropped. *)
Definition as_pystr (x : string) : string := sfilter is_ascii x.

(** ** Insertion-ordered dictionaries *)

Module Dict.

(** [d[k] = v]: an existing key keeps its position and takes the new value,
    a new key goes last. *)
Fixpoint set {V : Type} (k : string) (v : V) (d : list (string * V)) : list (string * V) :=
  match d with
  | [] => [(k, v)]
  | (k', v') :: d' =>
      if decide (k' = k) then (k', v) :: d' else (k', v') :: set k v d'
  end.

Fixpoint get {V : Type} (k : string) (d : list (string * V)) : option V :=
  match d with
  | [] => None
  | (k', v') :: d' => if decide (k' = k) then Some v' else get k d'
  end.

(** [d.setdefault(k, set()).add(x)] *)
Fixpoint setdefault_add (k x : string) (d : list (string * gset string))
    : list (string * gset string) :=
  match d with
  | [] => [(k, {[ x ]})]
  | (k', s) :: d' =>
      if decide (k' = k) then (k', {[ x ]} ∪ s) :: d'
      else (k', s) :: setdefault_add k x d'
  end.

End Dict.

(** ** The global state and the knowledge-base load *)

Record kb : Type := mk_kb {
  disease_label_map : list (string * string);
  symptom_label_map : list (string * string);
  facts : list (string * string)   (* has_symptom(Disease, Symptom), in clause order *)
}.

Definition empty_kb : kb := mk_kb [] [] [].

(** [prolog.assertz("has_symptom(%p, %p)", d, s)]: the clause goes last.
    Slugs hold letters, digits and underscores only, so the assertion is
    taken to succeed; the [except] branch, which logs and skips the fact, is
    not reached. *)
Definition assertz (d s : string) (st : kb) : kb :=
  mk_kb (disease_label_map st) (symptom_label_map st) (facts st ++ [(d, s)]).

(** [prolog.query("has_symptom(Disease, %p)", s)]: the bindings of
    [Disease], one per matching clause, in clause order. *)
Definition has_symptom_query (fs : list (string * string)) (s : string) : list string :=
  (filter (λ f, f.2 = s) fs).*1.

(** A row of the sheet: the [Disease] and [Symptom] cells. *)
Record row : Type := mk_row { Disease : string; Symptom : string }.

(** The inner loop of [load_prolog_from_xlsx], for one piece of the
    [Symptom] cell. *)
Definition load_symptom (d_slug : string) (st : kb) (s_raw : string) : kb :=
  let s_raw := strip (as_pystr s_raw) in
  let s_slug := slugify s_raw in
  let st := mk_kb (disease_label_map st)
                  (Dict.set s_slug s_raw (symptom_label_map st))
                  (facts st) in
  assertz (as_pystr d_slug) (as_pystr s_slug) st.

Definition load_row (st : kb) (r : row) : kb :=
  let d_raw := strip (as_pystr (Disease r)) in
  let d_slug := slugify d_raw in
  let st := mk_kb (Dict.set d_slug d_raw (disease_label_map st))
                  (symptom_label_map st)
                  (facts st) in
  fold_left (load_symptom d_slug) (split "," (as_pystr (Symptom r))) st.

Definition load_prolog_from_xlsx (rows : list row) (st : kb) : kb :=
  fold_left load_row rows st.

(** ** Resolution of the extracted entities *)

(** An entity of [doc.ents]: its text and its label. *)
Record ent : Type := mk_ent { text : string; label_ : string }.

(** The [for ... break] over [symptom_label_map.items()]: the first slug
    whose label or slug contains the mention. *)
Fixpoint first_match (ent_label : string) (d : list (string * string)) : option string :=
  match d with
  | [] => None
  | (slug, full_label) :: d' =>
      if contains ent_label (lower (as_pystr full_label))
         || contains (replace_char " " "_" ent_label) slug
      then Some (as_pystr slug)
      else first_match ent_label d'
  end.

Definition resolve (st : kb) (e : ent) : string :=
  let ent_label := lower (strip (text e)) in
  let ent_slug := slugify ent_label in
  match first_match ent_label (symptom_label_map st) with
  | Some slug => slug
  | None => as_pystr ent_slug
  end.

Definition extract_symptoms (st : kb) (ents : list ent) : list string :=
  resolve st <$> filter (λ e, label_ e = "SYMPTOM") ents.

(** ** The abductive query and the ranking *)

(** The body of the outer loop of [abductive_explanation]: every answer
    of the query gets [symptom] added to its set.  The query is taken to
    answer; the [except] branch, which logs and goes on to the next symptom,
    is not reached. *)
Definition add_symptom (fs : list (string * string))
    (explanation : list (string * gset string)) (symptom : string)
    : list (string * gset string) :=
  fold_left (λ explanation disease, Dict.setdefault_add disease symptom explanation)
            (has_symptom_query fs (as_pystr symptom)) explanation.

Definition abductive_explanation (fs : list (string * string)) (symptoms : list string)
    : list (string * gset string) :=
  fold_left (add_symptom fs) symptoms [].

(** [sorted(items, key=lambda x: len(x[1]), reverse=True)]: a stable sort,
    largest sets first.  An item is put before the first one that is not
    larger than it. *)
Fixpoint insert_desc (x : string * gset string) (l : list (string * gset string))
    : list (string * gset string) :=
  match l with
  | [] => [x]
  | y :: l' =>
      if decide (size y.2 ≤ size x.2)%nat then x :: l else y :: insert_desc x l'
  end.

Definition sorted_desc (l : list (string * gset string)) : list (string * gset string) :=
  foldr insert_desc [] l.

Definition differential_diagnosis (fs : list (string * string)) (symptoms : list string)
    : list (string * gset string) :=
  sorted_desc (abductive_explanation fs symptoms).

(** ** The report of [show_differential] *)

(** [100 * len(syms) / len(symptoms) if symptoms else 0], as an exact
    rational. *)
Definition percent (syms : gset string) (symptoms : list string) : Q :=
  match symptoms with
  | [] => 0%Q
  | _ :: _ => (Z.of_nat (100 * size syms) # Pos.of_nat (length symptoms))%Q
  end.

(** A line of the main table: [i], the disease, [len(syms)/len(symptoms)],
    the percentage and the matched symptoms. *)
Record table_line : Type := mk_line {
  line_rank : nat;
  line_disease : string;
  line_matched : nat;
  line_total : nat;
  line_percent : Q;
  line_syms : gset string
}.

Definition table (ranked : list (string * gset string)) (symptoms : list string)
    : list table_line :=
  imap (λ i e, mk_line (S i) e.1 (size e.2) (length symptoms)
                       (percent e.2 symptoms) e.2) ranked.

(** [[(i+1, d, s) for i, (d, s) in enumerate(ranked) if len(s) == len(symptoms)]] *)
Definition top (ranked : list (string * gset string)) (symptoms : list string)
    : list (nat * string * gset string) :=
  filter (λ t, size t.2 = length symptoms)
         (imap (λ i e, ((i + 1)%nat, e.1, e.2)) ranked).

(** [set(sym for r in ranked for sym in r[1])] *)
Definition explained (ranked : list (string * gset string)) : gset string :=
  ⋃ (ranked.*2).

(** [[s for s in symptoms if s not in explained]] *)
Definition unexplained (ranked : list (string * gset string)) (symptoms : list string)
    : list string :=
  filter (λ s, s ∉ explained ranked) symptoms.

(** What [show_differential] prints, before the slugs are rendered by
    [human_label]: either the notice that no disease explains anything, after
    which the function returns, or the observed symptoms, the table, the
    most plausible diseases (an empty list prints the notice that no single
    disease explains all symptoms) and the unexplained symptoms (printed
    only when there are some). *)
Inductive report : Type :=
  | NoDiseases
  | Differential (observed : list string) (lines : list table_line)
                 (most_plausible : list (nat * string * gset string))
                 (unexplained_symptoms : list string).

Definition show_differential (ranked : list (string * gset string)) (symptoms : list string)
    : report :=
  match ranked with
  | [] => NoDiseases
  | _ :: _ =>
      Differential symptoms (table ranked symptoms) (top ranked symptoms)
                   (unexplained ranked symptoms)
  end.


Definition report_top (r : report) : list (nat * string * gset string) :=
  match r with NoDiseases => [] | Differential _ _ t _ => t end.

Definition report_unexplained (r : report) : list string :=
  match r with NoDiseases => [] | Differential _ _ _ u => u end.

(** One turn of the command loop, after the exit test. *)
Inductive outcome : Type :=
  | NoSymptoms
  | Displayed (symptoms : list string) (ranked : list (string * gset string)) (r : report).

Definition main_turn (st : kb) (ents : list ent) : outcome :=
  let symptoms := extract_symptoms st ents in
  match symptoms with
  | [] => NoSymptoms
  | _ :: _ =>
      let ranked := differential_diagnosis (facts st) symptoms in
      Displayed symptoms ranked (show_differential ranked symptoms)
  end.

(** ** Rendering of a slug: [human_label] *)

Definition SHOW_CODE : bool := true.

Definition is_digit (c : ascii) : bool := between 48 57 (code c).

(** [code.upper()]: the code is a letter c and digits, so only the ASCII
    letters matter. *)
Definition upper_char (c : ascii) : ascii :=
  if between 97 122 (code c) then ascii_of_nat (code c - 32) else c.

Definition upper (s : string) : string := smap upper_char s.

(** The pattern [^umls[_:]], case apart: what follows it. *)
Definition match_umls_sep (s : string) : option string :=
  match s with
  | String u (String m (String l (String s0 (String sep rest)))) =>
      if String.eqb (lower (String u (String m (String l (String s0 EmptyString))))) "umls"
         && (Ascii.eqb sep "_" || Ascii.eqb sep ":")
      then Some rest else None
  | _ => None
  end.

(** [[0-9]*], greedy: the digits at the start, and the rest. *)
Fixpoint span_digits (s : string) : string * string :=
  match s with
  | EmptyString => (EmptyString, EmptyString)
  | String c s' =>
      if is_digit c then (String c (span_digits s').1, (span_digits s').2)
      else (EmptyString, s)
  end.

(** [.*], greedy, without [re.DOTALL]: the text up to the first newline. *)
Fixpoint take_line (s : string) : string :=
  match s with
  | EmptyString => EmptyString
  | String c s' => if Ascii.eqb c "010" then EmptyString else String c (take_line s')
  end.

(** The pattern [c[0-9]+_] at the start of [s], the letter in either case
    when [ignorecase]: the letter with its digits, and what follows the
    underscore.  The digits are followed by a character that is no digit, so
    giving some of them back never helps the match. *)
Definition match_code (ignorecase : bool) (s : string) : option (string * string) :=
  match s with
  | String c s' =>
      if Ascii.eqb (if ignorecase then lower_char c else c) "c" then
        match span_digits s' with
        | (String d ds, String us rest) =>
            if Ascii.eqb us "_" then Some (String c (String d ds), rest) else None
        | _ => None
        end
      else None
  | EmptyString => None
  end.

(** [re.match(r'^umls[_:](c[0-9]+)_(.+)', slug, flags=re.IGNORECASE)]: the
    two groups. *)
Definition code_match (slug : string) : option (string * string) :=
  match match_umls_sep slug with
  | Some rest =>
      match match_code true rest with
      | Some (code, after) =>
          match take_line after with
          | EmptyString => None
          | label => Some (code, label)
          end
      | None => None
      end
  | None => None
  end.

(** [re.sub(r'^umls[_:]', '', slug, flags=re.IGNORECASE)] *)
Definition drop_umls_sep (slug : string) : string :=
  match match_umls_sep slug with Some rest => rest | None => slug end.

(** [re.sub(r'^c[0-9]+_', '', label)] *)
Definition drop_code (label : string) : string :=
  match match_code false label with Some (_, rest) => rest | None => label end.

Definition human_label (slug : string) (show_code : bool) : string :=
  let slug := as_pystr slug in
  let '(code, label) :=
    match code_match slug with
    | Some (code, label) => (Some code, label)
    | None => (None, drop_code (drop_umls_sep slug))
    end in
  let label := replace_char "_" " " label in
  match code with
  | Some code => if show_code then upper code +:+ ": " +:+ label else label
  | None => label
  end.

(** ** The patterns of the entity ruler: [load_symptoms_for_ruler] *)

(** [[^_]*_], greedy: what follows the first underscore. *)
Fixpoint after_underscore (s : string) : option string :=
  match s with
  | EmptyString => None
  | String c s' => if Ascii.eqb c "_" then Some s' else after_underscore s'
  end.

(** [re.sub(r'^UMLS:[^_]*_', '', s, flags=re.IGNORECASE)] *)
Definition drop_coded_prefix (s : string) : string :=
  match s with
  | String u (String m (String l (String s0 (String colon rest)))) =>
      if String.eqb
           (lower (String u (String m (String l (String s0 (String colon EmptyString))))))
           "umls:"
      then match after_underscore rest with Some label => label | None => s end
      else s
  | _ => s
  end.

(** The inner loop, for one piece of the [Symptom] cell. *)
Definition ruler_add (unique_symptoms : gset string) (s : string) : gset string :=
  let s := strip (as_pystr s) in
  let label := drop_coded_prefix s in
  if decide (label = EmptyString) then unique_symptoms
  else {[ lower label ]} ∪ unique_symptoms.

(** The patterns, as the set [unique_symptoms]; every pattern carries the
    label [SYMPTOM], and the order of the returned list is the one the set
    is iterated in, which the model leaves out. *)
Definition load_symptoms_for_ruler (rows : list row) : gset string :=
  fold_left (λ unique_symptoms r,
               fold_left ruler_add (split "," (as_pystr (Symptom r))) unique_symptoms)
            rows ∅.

(** ** Notions used to state the properties *)

(** The raw labels met by the load, in the order the loops meet them. *)
Definition disease_raws (rows : list row) : list string :=
  (λ r, strip (as_pystr (Disease r))) <$> rows.

Definition symptom_raws_of (r : row) : list string :=
  (λ p, strip (as_pystr p)) <$> split "," (as_pystr (Symptom r)).

Definition symptom_raws (rows : list row) : list string :=
  rows ≫= symptom_raws_of.

(** The first, and the last, raw label of a sequence that normalises to
    [slug]. *)
Definition first_label (slug : string) (raws : list string) : option string :=
  head (filter (λ raw, slugify raw = slug) raws).

Definition last_label (slug : string) (raws : list string) : option string :=
  last (filter (λ raw, slugify raw = slug) raws).

(** Assigning the labels of [raws] in turn. *)
Definition assign_all (raws : list string) (d : list (string * string)) :=
  fold_left (λ d raw, Dict.set (slugify raw) raw d) raws d.

(** A sequence without its repeated mentions: first occurrences, in order. *)
Fixpoint dedup_first (l : list string) : list string :=
  match l with
  | [] => []
  | x :: l' => x :: filter (λ y, y ≠ x) (dedup_first l')
  end.

(** Strings [as_pystr] leaves alone, as all slugs are. *)
Definition ascii_only (s : string) : Prop := as_pystr s = s.

(** The symptoms with at least one clause in the store. *)
Definition known (fs : list (string * string)) (s : string) : Prop :=
  has_symptom_query fs s ≠ [].

#[global] Instance known_dec fs s : Decision (known fs s).
Proof. unfold known. apply _. Defined.

(** The loop of [abductive_explanation] started from any dictionary. *)
Definition abduce_from (fs : list (string * string))
    (explanation : list (string * gset string)) (symptoms : list string) :=
  fold_left (add_symptom fs) symptoms explanation.

(** The observed symptoms a disease presents with, as a set. *)
Definition matched (fs : list (string * string)) (symptoms : list string) (d : string)
    : gset string :=
  list_to_set (filter (λ s, (d, as_pystr s) ∈ fs) symptoms).

(** A symptom is absorbed by a dictionary when running its turn of the loop
    again would change nothing: every disease it points to holds it already. *)
Definition absorbed (fs : list (string * string)) (E : list (string * gset string))
    (s : string) : Prop :=
  ∀ d, (d, as_pystr s) ∈ fs → ∃ S, Dict.get d E = Some S ∧ s ∈ S.

(** The order of the ranking: [x] may stand before [y]. *)
Definition covers_no_less (x y : string * gset string) : Prop := size y.2 ≤ size x.2.

(** A mention that no entry of the symptom label table matches: its text
    is in no raw label, case apart, and its underscored text in no slug. *)
Definition no_match (st : kb) (mention : string) : Prop :=
  let ent_label := lower (strip mention) in
  Forall (λ item, contains ent_label (lower (as_pystr item.2)) = false
                  ∧ contains (replace_char " " "_" ent_label) item.1 = false)
         (symptom_label_map st).

(** What the replacements and the lowering of [slugify] make of one
    character. *)
Definition norm_char (c : ascii) : ascii :=
  lower_char ((λ c, if Ascii.eqb c " " then "_" else c)
                ((λ c, if Ascii.eqb c ":" then "_" else c) c))%char.

(** A well-formed slug: the marker, then letters, digits and underscores. *)
Definition is_slug (s : string) : Prop :=
  startswith "umls_" s = true ∧ sall is_slug_char s = true.

(** A plain label: lower-case letters and single spaces, as the free-text
    part of a symptom or disease name. *)
Definition is_plain_char (c : ascii) : bool := between 97 122 (code c) || Ascii.eqb c " ".

Definition no_underscore (c : ascii) : bool := negb (Ascii.eqb c "_").

(** The facts one row asserts, in the order the inner loop asserts them. *)
Definition row_facts (r : row) : list (string * string) :=
  (λ raw, (slugify (strip (as_pystr (Disease r))), slugify raw)) <$> symptom_raws_of r.

(** The test of the resolver's loop on one entry of the symptom table. *)
Definition mention_matches (ent_label : string) (item : string * string) : bool :=
  contains ent_label (lower (as_pystr item.2))
  || contains (replace_char " " "_" ent_label) item.1.

(** * Properties *)

Example slugify_code : slugify " UMLS:C0010200_cough" = "umls_c0010200_cough".
Proof. reflexivity. Qed.

Example slugify_plain : slugify "Chest Pain" = "umls_chest_pain".
Proof. reflexivity. Qed.

Example slugify_invalid : slugify "?!" = "umls_".
Proof. reflexivity. Qed.

(** ** Slugs are fixed points of [slugify] *)

Section slugs.

Lemma slug_char_facts c :
  is_slug_char c = true →
  is_space c = false ∧ lower_char c = c
  ∧ Ascii.eqb c ":" = false ∧ Ascii.eqb c " " = false.
Proof.
  destruct c as [[] [] [] [] [] [] [] []]; vm_compute;
    first [ discriminate | intros _; repeat split; reflexivity ].
Qed.

Lemma sall_sfilter p s : sall p (sfilter p s) = true.
Proof.
  induction s as [|c s IH]; simpl; [done|].
  destruct (p c) eqn:Hc; simpl; [rewrite Hc|]; done.
Qed.

Lemma sfilter_id p s : sall p s = true → sfilter p s = s.
Proof.
  induction s as [|c s IH]; simpl; [done|].
  intros [Hc Hs]%andb_prop. rewrite Hc, IH; done.
Qed.

Lemma smap_id f p s :
  (∀ c, p c = true → f c = c) → sall p s = true → smap f s = s.
Proof.
  intros Hf. induction s as [|c s IH]; simpl; [done|].
  intros [Hc Hs]%andb_prop. rewrite (Hf c Hc), IH; done.
Qed.

Lemma rstrip_id s : sall is_slug_char s = true → rstrip s = s.
Proof.
  induction s as [|c s IH]; simpl; [done|].
  intros [Hc Hs]%andb_prop. rewrite (IH Hs).
  destruct s; [|done].
  destruct (slug_char_facts c Hc) as [-> _]; done.
Qed.

Lemma lstrip_id s : sall is_slug_char s = true → lstrip s = s.
Proof.
  destruct s as [|c s]; simpl; [done|].
  intros [Hc _]%andb_prop.
  destruct (slug_char_facts c Hc) as [-> _]; done.
Qed.

Lemma strip_id s : sall is_slug_char s = true → strip s = s.
Proof. intros H. unfold strip. rewrite (lstrip_id s H). by apply rstrip_id. Qed.

Lemma drop_umls_prefix_id s : startswith "umls_" s = true → drop_umls_prefix s = s.
Proof.
  destruct s as [|c1 [|c2 [|c3 [|c4 [|c5 s]]]]]; try done.
  cbn [startswith]. intros H.
  repeat (apply andb_prop in H as [?%Ascii.eqb_eq H]). subst. reflexivity.
Qed.

(** The two shapes every result of [slugify] has. *)
Lemma slugify_chars x : sall is_slug_char (slugify x) = true.
Proof.
  unfold slugify. set (t := sfilter _ _).
  destruct (startswith "umls_" t); apply sall_sfilter.
Qed.

Lemma slugify_startswith x : startswith "umls_" (slugify x) = true.
Proof.
  unfold slugify. set (t := sfilter _ _).
  destruct (startswith "umls_" t) eqn:H; [exact H | reflexivity].
Qed.

Lemma slugify_fixed s :
  sall is_slug_char s = true → startswith "umls_" s = true → slugify s = s.
Proof.
  intros Hs Hp. unfold slugify.
  rewrite (strip_id s Hs), (drop_umls_prefix_id s Hp).
  unfold replace_char, lower.
  rewrite (smap_id _ is_slug_char s), (smap_id _ is_slug_char s),
    (smap_id _ is_slug_char s), (sfilter_id _ s Hs), Hp; try done.
  - intros c Hc. by destruct (slug_char_facts c Hc) as (_ & -> & _).
  - intros c Hc. by destruct (slug_char_facts c Hc) as (_ & _ & _ & ->).
  - intros c Hc. by destruct (slug_char_facts c Hc) as (_ & _ & -> & _).
Qed.

(** Slugs are ASCII, so [as_pystr] leaves them alone. *)
Lemma slug_char_ascii c : is_slug_char c = true → is_ascii c = true.
Proof. destruct c as [[] [] [] [] [] [] [] []]; vm_compute; congruence. Qed.

Lemma sall_impl (p q : ascii → bool) s :
  (∀ c, p c = true → q c = true) → sall p s = true → sall q s = true.
Proof.
  intros Hpq. induction s as [|c s IH]; simpl; [done|].
  intros [Hc Hs]%andb_prop. rewrite (Hpq c Hc), IH; done.
Qed.

Lemma as_pystr_slugify x : as_pystr (slugify x) = slugify x.
Proof.
  apply sfilter_id, (sall_impl is_slug_char); [apply slug_char_ascii|].
  apply slugify_chars.
Qed.

End slugs.

(** C7: slug normalisation is idempotent: [slugify (slugify x) = slugify x]
    for every raw string [x], so a string that already is a slug is returned
    unchanged. *)
Theorem slugify_idempotent (x : string) : slugify (slugify x) = slugify x.
Proof. apply slugify_fixed; [apply slugify_chars | apply slugify_startswith]. Qed.

(** ** The label tables after a load *)

Section labels.

Lemma get_set {V} k k' (v : V) d :
  Dict.get k (Dict.set k' v d) = if decide (k' = k) then Some v else Dict.get k d.
Proof.
  induction d as [|[k0 v0] d IH]; simpl.
  - by destruct (decide (k' = k)).
  - destruct (decide (k0 = k')) as [->|Hne]; simpl.
    + by destruct (decide (k' = k)).
    + destruct (decide (k0 = k)) as [->|]; [|done].
      by rewrite decide_False by done.
Qed.

Lemma get_assign_all slug raws d :
  Dict.get slug (assign_all raws d)
  = match last_label slug raws with Some raw => Some raw | None => Dict.get slug d end.
Proof.
  unfold assign_all, last_label. revert d.
  induction raws as [|raw raws IH]; intros d; simpl; [done|].
  rewrite IH, get_set. rewrite filter_cons.
  destruct (decide (slugify raw = slug)) as [Heq|Hne]; [|done].
  rewrite last_cons. by destruct (last _).
Qed.

Lemma load_symptoms_maps d_slug pieces st :
  let st' := fold_left (load_symptom d_slug) pieces st in
  disease_label_map st' = disease_label_map st
  ∧ symptom_label_map st'
    = assign_all ((λ p, strip (as_pystr p)) <$> pieces) (symptom_label_map st).
Proof.
  revert st. induction pieces as [|p pieces IH]; intros st; simpl; [done|].
  destruct (IH (load_symptom d_slug st p)) as [-> ->]. done.
Qed.

Lemma assign_all_app raws1 raws2 d :
  assign_all (raws1 ++ raws2) d = assign_all raws2 (assign_all raws1 d).
Proof. apply fold_left_app. Qed.

Lemma load_maps rows st :
  let st' := load_prolog_from_xlsx rows st in
  disease_label_map st' = assign_all (disease_raws rows) (disease_label_map st)
  ∧ symptom_label_map st' = assign_all (symptom_raws rows) (symptom_label_map st).
Proof.
  revert st. induction rows as [|r rows IH]; intros st; simpl; [done|].
  destruct (IH (load_row st r)) as [-> ->].
  unfold load_row.
  match goal with |- context [fold_left (load_symptom ?d) ?ps ?s] =>
    destruct (load_symptoms_maps d ps s) as [-> ->] end.
  simpl. split; [done|]. by rewrite assign_all_app.
Qed.

End labels.

(** C3, as the code has it: after a load into empty tables, the label
    registered for a slug is the last raw label that normalises to it; each
    later raw label for the same slug overwrites the earlier one.  This holds
    for the disease table and for the symptom table. *)
Theorem label_last_seen_wins (rows : list row) (slug : string) :
  let st := load_prolog_from_xlsx rows empty_kb in
  Dict.get slug (disease_label_map st) = last_label slug (disease_raws rows)
  ∧ Dict.get slug (symptom_label_map st) = last_label slug (symptom_raws rows).
Proof.
  destruct (load_maps rows empty_kb) as [Hd Hs].
  simpl. rewrite Hd, Hs, !get_assign_all. simpl.
  split; by destruct (last_label _ _).
Qed.

(** C3, as the claim has it, fails: two records spell the same symptom
    [Fever] and [fever]; the first-seen label is [Fever], the table holds
    [fever]. *)
Lemma label_first_seen_overwritten :
  let rows := [mk_row "Flu" "Fever"; mk_row "Cold" "fever"] in
  let st := load_prolog_from_xlsx rows empty_kb in
  first_label "umls_fever" (symptom_raws rows) = Some "Fever"
  ∧ Dict.get "umls_fever" (symptom_label_map st) = Some "fever"
  ∧ Dict.get "umls_fever" (symptom_label_map st)
    ≠ first_label "umls_fever" (symptom_raws rows).
Proof. vm_compute. repeat split; congruence. Qed.

(** ** The explanation dictionary *)

Section explanation.

Implicit Types (E : list (string * gset string)) (S : gset string).
Implicit Types (fs : list (string * string)) (d k s x : string).

Lemma get_is_Some {V} k (D : list (string * V)) : is_Some (Dict.get k D) ↔ k ∈ D.*1.
Proof.
  induction D as [|[k0 v0] D IH]; simpl.
  - split; [by intros [? ?] | by intros ?%elem_of_nil].
  - destruct (decide (k0 = k)) as [->|Hne].
    + split; [intros _; left | eauto].
    + rewrite IH. split; [by right|]. by intros [?|?]%elem_of_cons.
Qed.

Lemma get_None {V} k (D : list (string * V)) : Dict.get k D = None ↔ k ∉ D.*1.
Proof. rewrite <-get_is_Some, eq_None_not_Some. done. Qed.

Lemma get_elem_of {V} k (v : V) (D : list (string * V)) :
  NoDup D.*1 → (k, v) ∈ D ↔ Dict.get k D = Some v.
Proof.
  induction D as [|[k0 v0] D IH]; simpl; intros Hnd.
  - split; [by intros ?%elem_of_nil | done].
  - apply NoDup_cons in Hnd as [Hk0 Hnd].
    destruct (decide (k0 = k)) as [->|Hne].
    + split.
      * intros [[= ->]|Hin]%elem_of_cons; [done|].
        destruct Hk0. apply list_elem_of_fmap. by exists (k, v).
      * intros [= ->]. left.
    + rewrite <-(IH Hnd). split; [|by right].
      intros [[= ? ?]|?]%elem_of_cons; done.
Qed.

Lemma get_setdefault_add d k x E :
  Dict.get d (Dict.setdefault_add k x E)
  = if decide (k = d) then Some ({[ x ]} ∪ default ∅ (Dict.get d E)) else Dict.get d E.
Proof.
  induction E as [|[k0 S0] E IH]; simpl.
  - destruct (decide (k = d)); [|done]. f_equal. set_solver.
  - destruct (decide (k0 = k)) as [->|Hne]; simpl.
    + by destruct (decide (k = d)).
    + destruct (decide (k0 = d)) as [->|]; [|done].
      by rewrite decide_False by done.
Qed.

Lemma keys_setdefault_add k x E :
  (Dict.setdefault_add k x E).*1 = if decide (k ∈ E.*1) then E.*1 else E.*1 ++ [k].
Proof.
  induction E as [|[k0 S0] E IH].
  - by rewrite decide_False by apply not_elem_of_nil.
  - cbn [Dict.setdefault_add]. rewrite !fmap_cons. simpl fst.
    destruct (decide (k0 = k)) as [->|Hne].
    + by rewrite decide_True by left.
    + rewrite fmap_cons, IH. simpl fst. destruct (decide (k ∈ E.*1)).
      * by rewrite decide_True by (by right).
      * rewrite decide_False; [done|]. by intros [?|?]%elem_of_cons.
Qed.

Lemma NoDup_setdefault_add k x E : NoDup E.*1 → NoDup (Dict.setdefault_add k x E).*1.
Proof.
  intros Hnd. rewrite keys_setdefault_add. destruct (decide (k ∈ E.*1)); [done|].
  apply NoDup_app. split_and!; [done | | apply NoDup_singleton].
  intros y Hy ->%list_elem_of_singleton. done.
Qed.

Lemma elem_of_query fs d s : d ∈ has_symptom_query fs s ↔ (d, s) ∈ fs.
Proof.
  unfold has_symptom_query. rewrite list_elem_of_fmap. split.
  - intros ([d' s'] & -> & [? ?]%list_elem_of_filter). simpl in *. by subst.
  - intros Hin. exists (d, s). split; [done|]. by apply list_elem_of_filter.
Qed.

Lemma get_add_all d s (ds : list string) E :
  Dict.get d (fold_left (λ e k, Dict.setdefault_add k s e) ds E)
  = if decide (d ∈ ds) then Some ({[ s ]} ∪ default ∅ (Dict.get d E)) else Dict.get d E.
Proof.
  revert E. induction ds as [|k ds IH]; intros E; cbn [fold_left].
  - by rewrite decide_False by apply not_elem_of_nil.
  - rewrite IH, get_setdefault_add.
    destruct (decide (k = d)) as [->|Hne].
    + rewrite (decide_True (P := d ∈ d :: ds)) by left. simpl.
      destruct (decide (d ∈ ds)); f_equal; set_solver.
    + destruct (decide (d ∈ ds)).
      * rewrite decide_True; [done | by right].
      * rewrite decide_False; [done|]. by intros [?|?]%elem_of_cons.
Qed.

Lemma NoDup_add_all s (ds : list string) E :
  NoDup E.*1 → NoDup (fold_left (λ e k, Dict.setdefault_add k s e) ds E).*1.
Proof.
  revert E. induction ds as [|k ds IH]; intros E Hnd; simpl; [done|].
  by apply IH, NoDup_setdefault_add.
Qed.

Lemma get_add_symptom fs d s E :
  Dict.get d (add_symptom fs E s)
  = if decide ((d, as_pystr s) ∈ fs)
    then Some ({[ s ]} ∪ default ∅ (Dict.get d E)) else Dict.get d E.
Proof.
  unfold add_symptom. rewrite get_add_all.
  destruct (decide (d ∈ _)) as [Hin|Hin]; rewrite elem_of_query in Hin.
  - by rewrite decide_True.
  - by rewrite decide_False.
Qed.

Lemma matched_cons fs s l d :
  matched fs (s :: l) d
  = if decide ((d, as_pystr s) ∈ fs) then {[ s ]} ∪ matched fs l d else matched fs l d.
Proof.
  unfold matched. rewrite filter_cons.
  destruct (decide ((d, as_pystr s) ∈ fs)); done.
Qed.

Lemma elem_of_matched fs l d s :
  s ∈ matched fs l d ↔ s ∈ l ∧ (d, as_pystr s) ∈ fs.
Proof.
  unfold matched. rewrite elem_of_list_to_set, list_elem_of_filter. tauto.
Qed.

(** The loop adds to each entry the observed symptoms the disease presents
    with, and creates the entry when there is one. *)
Lemma get_abduce_from fs d l E :
  Dict.get d (abduce_from fs E l)
  = if decide (matched fs l d = ∅) then Dict.get d E
    else Some (matched fs l d ∪ default ∅ (Dict.get d E)).
Proof.
  unfold abduce_from. revert E. induction l as [|s l IH]; intros E; simpl.
  - rewrite decide_True; done.
  - rewrite IH, get_add_symptom, matched_cons.
    destruct (decide ((d, as_pystr s) ∈ fs)); [|done].
    rewrite (decide_False (P := {[ s ]} ∪ _ = ∅)) by set_solver.
    destruct (decide (matched fs l d = ∅)) as [->|]; simpl; f_equal; set_solver.
Qed.

Lemma NoDup_abduce_from fs l E : NoDup E.*1 → NoDup (abduce_from fs E l).*1.
Proof.
  unfold abduce_from. revert E. induction l as [|s l IH]; intros E Hnd; simpl; [done|].
  by apply IH, NoDup_add_all.
Qed.

Lemma setdefault_add_absorbed k x E S :
  Dict.get k E = Some S → x ∈ S → Dict.setdefault_add k x E = E.
Proof.
  induction E as [|[k0 S0] E IH]; simpl; [done|].
  destruct (decide (k0 = k)) as [->|Hne].
  - intros [= ->] Hx. do 2 f_equal. set_solver.
  - intros HS Hx. by rewrite IH.
Qed.

Lemma add_all_absorbed s (ds : list string) E :
  (∀ d, d ∈ ds → ∃ S, Dict.get d E = Some S ∧ s ∈ S) →
  fold_left (λ e k, Dict.setdefault_add k s e) ds E = E.
Proof.
  induction ds as [|k ds IH]; intros Habs; simpl; [done|].
  destruct (Habs k) as (S & HS & Hs); [left|].
  rewrite (setdefault_add_absorbed k s E S HS Hs).
  apply IH. intros d Hd. apply Habs. by right.
Qed.

Lemma add_symptom_absorbed fs E s : absorbed fs E s → add_symptom fs E s = E.
Proof.
  intros Habs. apply add_all_absorbed. intros d Hd%elem_of_query. by apply Habs.
Qed.

Lemma absorbed_add_symptom fs E s : absorbed fs (add_symptom fs E s) s.
Proof.
  intros d Hd. rewrite get_add_symptom, decide_True by done.
  eexists. split; [done|]. set_solver.
Qed.

Lemma absorbed_mono fs E s s' : absorbed fs E s → absorbed fs (add_symptom fs E s') s.
Proof.
  intros Habs d Hd. destruct (Habs d Hd) as (S & HS & Hs).
  rewrite get_add_symptom, HS. simpl.
  destruct (decide ((d, as_pystr s') ∈ fs)); eexists; (split; [done|]); set_solver.
Qed.

Lemma abduce_from_filter_absorbed fs x l E :
  absorbed fs E x → abduce_from fs E (filter (λ y, y ≠ x) l) = abduce_from fs E l.
Proof.
  unfold abduce_from. revert E. induction l as [|s l IH]; intros E Habs; [done|].
  rewrite filter_cons. destruct (decide (s ≠ x)) as [Hne|Heq]; simpl.
  - apply IH. by apply absorbed_mono.
  - apply dec_stable in Heq as ->.
    rewrite (add_symptom_absorbed fs E x Habs). by apply IH.
Qed.

Lemma abduce_from_dedup fs l E :
  abduce_from fs E (dedup_first l) = abduce_from fs E l.
Proof.
  revert E. induction l as [|x l IH]; intros E; [done|].
  change (abduce_from fs (add_symptom fs E x) (filter (λ y, y ≠ x) (dedup_first l))
          = abduce_from fs (add_symptom fs E x) l).
  rewrite abduce_from_filter_absorbed by apply absorbed_add_symptom.
  apply IH.
Qed.

Lemma abduce_from_known fs l E :
  abduce_from fs E (filter (λ s, known fs (as_pystr s)) l) = abduce_from fs E l.
Proof.
  unfold abduce_from. revert E. induction l as [|s l IH]; intros E; [done|].
  rewrite filter_cons. destruct (decide (known fs (as_pystr s))) as [Hk|Hk]; simpl.
  - apply IH.
  - rewrite <-IH. f_equal.
    apply dec_stable in Hk. unfold add_symptom. by rewrite Hk.
Qed.

End explanation.

Lemma abductive_explanation_unfold fs symptoms :
  abductive_explanation fs symptoms = abduce_from fs [] symptoms.
Proof. reflexivity. Qed.

Lemma ascii_only_filter_known fs symptoms :
  Forall ascii_only symptoms →
  filter (λ s, known fs (as_pystr s)) symptoms = filter (known fs) symptoms.
Proof.
  induction 1 as [|s l Hs Hl IH]; [done|].
  rewrite !filter_cons, IH, Hs. done.
Qed.

(** C5: the abductive query returns a dictionary (no key twice) whose keys
    are exactly the diseases with a clause for at least one observed symptom;
    each is mapped to the non-empty set of the observed symptoms it presents
    with; the result is the one of the sequence without its repeated mentions,
    and the one of the sequence without the symptoms the store does not know. *)
Theorem abductive_explanation_spec (fs : list (string * string)) (symptoms : list string) :
  Forall ascii_only symptoms →
  let E := abductive_explanation fs symptoms in
  NoDup E.*1
  ∧ (∀ d, d ∈ E.*1 ↔ ∃ s, s ∈ symptoms ∧ (d, s) ∈ fs)
  ∧ (∀ d S, (d, S) ∈ E → S ≠ ∅ ∧ ∀ s, s ∈ S ↔ s ∈ symptoms ∧ (d, s) ∈ fs)
  ∧ abductive_explanation fs (dedup_first symptoms) = E
  ∧ abductive_explanation fs (filter (known fs) symptoms) = E.
Proof.
  intros Hascii E.
  assert (Hnd : NoDup E.*1) by (apply NoDup_abduce_from; constructor).
  assert (Hget : ∀ d, Dict.get d E
     = if decide (matched fs symptoms d = ∅) then None
       else Some (matched fs symptoms d)).
  { intros d. unfold E. rewrite abductive_explanation_unfold, get_abduce_from.
    destruct (decide _); [done|]. simpl. f_equal. set_solver. }
  assert (Hm : ∀ d s, s ∈ matched fs symptoms d ↔ s ∈ symptoms ∧ (d, s) ∈ fs).
  { intros d s. rewrite elem_of_matched. split; intros [Hin Hf]; split; try done.
    - rewrite Forall_forall in Hascii. by rewrite <-(Hascii s Hin).
    - rewrite Forall_forall in Hascii. by rewrite (Hascii s Hin). }
  split_and!.
  - done.
  - intros d. rewrite <-get_is_Some, Hget. destruct (decide _) as [He|Hne].
    + split; [by intros [? ?]|]. intros (s & Hs & Hf).
      assert (s ∈ matched fs symptoms d) by by apply Hm. set_solver.
    + split; [|eauto]. intros _.
      apply set_choose_L in Hne as [s Hs]. exists s. by apply Hm.
  - intros d S HS. apply get_elem_of in HS; [|done]. rewrite Hget in HS.
    destruct (decide _) as [He|Hne]; [done|]. injection HS as <-. done.
  - unfold E. rewrite !abductive_explanation_unfold. apply abduce_from_dedup.
  - unfold E. rewrite !abductive_explanation_unfold, <-ascii_only_filter_known by done.
    apply abduce_from_known.
Qed.

Lemma abductive_explanation_spec_witness :
  Forall ascii_only ["umls_fever"; "umls_cough"; "umls_fever"]
  ∧ abductive_explanation [("umls_flu", "umls_fever"); ("umls_flu", "umls_cough")]
      (dedup_first ["umls_fever"; "umls_cough"; "umls_fever"])
    = abductive_explanation [("umls_flu", "umls_fever"); ("umls_flu", "umls_cough")]
        ["umls_fever"; "umls_cough"; "umls_fever"].
Proof.
  assert (Hascii : Forall ascii_only ["umls_fever"; "umls_cough"; "umls_fever"])
    by (repeat constructor).
  split; [exact Hascii|].
  exact (proj1 (proj2 (proj2 (proj2
    (abductive_explanation_spec [("umls_flu", "umls_fever"); ("umls_flu", "umls_cough")]
       ["umls_fever"; "umls_cough"; "umls_fever"] Hascii))))).
Defined.

(** ** The ranking *)

Section ranking.

Implicit Types (x y e : string * gset string) (l : list (string * gset string)).

Lemma insert_desc_perm x l : insert_desc x l ≡ₚ x :: l.
Proof.
  induction l as [|y l IH]; simpl; [done|].
  destruct (decide _); [done|]. rewrite IH. apply Permutation_swap.
Qed.

Lemma sorted_desc_perm l : sorted_desc l ≡ₚ l.
Proof.
  induction l as [|x l IH]; simpl; [done|].
  by rewrite insert_desc_perm, IH.
Qed.

Lemma insert_desc_HdRel x y l :
  covers_no_less y x → HdRel covers_no_less y l → HdRel covers_no_less y (insert_desc x l).
Proof.
  intros Hyx Hl. destruct l as [|z l]; simpl; [by constructor|].
  destruct (decide _); constructor; [done|]. by inversion Hl.
Qed.

Lemma insert_desc_Sorted x l :
  Sorted covers_no_less l → Sorted covers_no_less (insert_desc x l).
Proof.
  induction 1 as [|y l Hl IH Hhd]; simpl.
  - by repeat constructor.
  - destruct (decide (size y.2 ≤ size x.2)) as [Hle|Hgt].
    + constructor; [by constructor|]. by constructor.
    + constructor; [done|]. apply insert_desc_HdRel; [|done].
      unfold covers_no_less. lia.
Qed.

Lemma sorted_desc_Sorted l : Sorted covers_no_less (sorted_desc l).
Proof.
  induction l as [|x l IH]; simpl; [constructor|]. by apply insert_desc_Sorted.
Qed.

Lemma Sorted_adjacent l i x y :
  Sorted covers_no_less l → l !! i = Some x → l !! (S i) = Some y → covers_no_less x y.
Proof.
  intros Hs. revert i. induction Hs as [|z l Hl IH Hhd]; intros i Hx Hy; [done|].
  destruct i as [|i]; simpl in *.
  - injection Hx as ->. destruct l as [|z' l]; [done|].
    injection Hy as ->. by inversion Hhd.
  - by eapply IH.
Qed.

(** The sort is stable: the items of any one size keep their order. *)
Lemma insert_desc_stable n x l :
  filter (λ e, size e.2 = n) (insert_desc x l) = filter (λ e, size e.2 = n) (x :: l).
Proof.
  induction l as [|y l IH]; simpl; [done|].
  destruct (decide (size y.2 ≤ size x.2)) as [Hle|Hgt]; [done|].
  rewrite (filter_cons _ y), IH, !filter_cons.
  destruct (decide (size x.2 = n)), (decide (size y.2 = n)); try done. lia.
Qed.

Lemma sorted_desc_stable n l :
  filter (λ e, size e.2 = n) (sorted_desc l) = filter (λ e, size e.2 = n) l.
Proof.
  induction l as [|x l IH]; simpl; [done|].
  by rewrite insert_desc_stable, !filter_cons, IH.
Qed.

End ranking.

(** C6: the ranking is a stable sort of the entries of the explanation
    dictionary by decreasing size of the matched set: it has the same
    entries, no entry is followed by a larger one, the entries of equal size
    keep the order the dictionary has them in, and line [i] of the table
    (from 0) carries the rank [i + 1]. *)
Theorem ranking_spec (fs : list (string * string)) (symptoms : list string) :
  let E := abductive_explanation fs symptoms in
  let ranked := differential_diagnosis fs symptoms in
  ranked ≡ₚ E
  ∧ (∀ i x y, ranked !! i = Some x → ranked !! (S i) = Some y → size x.2 ≥ size y.2)
  ∧ (∀ n, filter (λ e, size e.2 = n) ranked = filter (λ e, size e.2 = n) E)
  ∧ (∀ i e, ranked !! i = Some e →
       table ranked symptoms !! i
       = Some (mk_line (i + 1) e.1 (size e.2) (length symptoms) (percent e.2 symptoms) e.2)).
Proof.
  intros E ranked. unfold ranked, differential_diagnosis. fold E. split_and!.
  - apply sorted_desc_perm.
  - intros i x y Hx Hy.
    apply (Sorted_adjacent _ i x y (sorted_desc_Sorted E) Hx Hy).
  - intros n. apply sorted_desc_stable.
  - intros i e He. unfold table. rewrite list_lookup_imap, He. simpl.
    by rewrite Nat.add_1_r.
Qed.

(** ** The report *)

Section report.

Implicit Types (ranked : list (string * gset string)) (symptoms : list string).
Implicit Types (fs : list (string * string)) (S : gset string).

Lemma elem_of_top ranked symptoms r d S :
  (r, d, S) ∈ top ranked symptoms
  ↔ ∃ i, r = i + 1 ∧ ranked !! i = Some (d, S) ∧ size S = length symptoms.
Proof.
  unfold top. rewrite list_elem_of_filter, elem_of_lookup_imap. simpl. split.
  - intros (Hsz & i & [d' S'] & [= -> -> ->] & Hi). eauto.
  - intros (i & -> & Hi & Hsz). split; [done|]. by exists i, (d, S).
Qed.



Lemma size_list_to_set_le symptoms :
  size (list_to_set symptoms : gset string) ≤ length symptoms.
Proof.
  induction symptoms as [|s l IH]; [by rewrite list_to_set_nil, size_empty|].
  rewrite list_to_set_cons, length_cons.
  destruct (decide (s ∈ (list_to_set l : gset string))).
  - replace ({[s]} ∪ list_to_set l) with (list_to_set l : gset string) by set_solver. lia.
  - rewrite size_union, size_singleton by set_solver. lia.
Qed.


(** Every ranked entry holds the observed symptoms of its disease, and at
    least one. *)
Lemma ranked_entry fs symptoms d S :
  (d, S) ∈ differential_diagnosis fs symptoms → S = matched fs symptoms d ∧ S ≠ ∅.
Proof.
  unfold differential_diagnosis. rewrite sorted_desc_perm.
  rewrite abductive_explanation_unfold.
  rewrite get_elem_of by (apply NoDup_abduce_from; constructor).
  rewrite get_abduce_from. destruct (decide _); [done|].
  intros [= <-]. simpl. split; [set_solver|]. set_solver.
Qed.

Lemma ranked_entry_size fs symptoms d S :
  (d, S) ∈ differential_diagnosis fs symptoms →
  size S ≤ size (list_to_set symptoms : gset string).
Proof.
  intros [-> _]%ranked_entry. apply subseteq_size.
  intros s [Hs _]%elem_of_matched. by apply elem_of_list_to_set.
Qed.


(** Without repeated mentions the most plausible list is the exact cover:
    the entries whose set has as many symptoms as were observed, each under
    its rank. *)
Lemma top_without_repeats ranked symptoms r d S :
  NoDup symptoms →
  (r, d, S) ∈ top ranked symptoms
  ↔ ∃ i, r = i + 1 ∧ ranked !! i = Some (d, S)
         ∧ size S = size (list_to_set symptoms : gset string).
Proof. intros Hnd. rewrite elem_of_top, size_list_to_set by done. done. Qed.

End report.

(** C1, at a repeated mention: the knowledge base has the one fact that Cold
    presents with cough, and cough is mentioned twice.  Cold explains the one
    distinct observed symptom, and the most plausible list is empty. *)
Theorem fully_explanatory_misses_repeated_mention :
  let st := load_prolog_from_xlsx [mk_row "Cold" "UMLS:C0010200_cough"] empty_kb in
  let symptoms := extract_symptoms st [mk_ent "cough" "SYMPTOM"; mk_ent "cough" "SYMPTOM"] in
  let ranked := differential_diagnosis (facts st) symptoms in
  symptoms = ["umls_c0010200_cough"; "umls_c0010200_cough"]
  ∧ ranked = [("umls_cold", {[ "umls_c0010200_cough" ]})]
  ∧ size ({[ "umls_c0010200_cough" ]} : gset string)
    = size (list_to_set symptoms : gset string)
  ∧ report_top (show_differential ranked symptoms) = [].
Proof. vm_compute. done. Qed.






(** ** Queries without an explanation *)

(** C8: with no observed symptom the ranking is empty whatever the store
    holds, the report is the notice alone and lists no unexplained symptom,
    the unexplained expression itself is empty, and the percentage over an
    empty observation is 0. *)
Theorem empty_query (fs : list (string * string)) :
  differential_diagnosis fs [] = []
  ∧ show_differential (differential_diagnosis fs []) [] = NoDiseases
  ∧ report_unexplained (show_differential (differential_diagnosis fs []) []) = []
  ∧ (∀ ranked, unexplained ranked [] = [])
  ∧ (∀ syms, percent syms [] = 0%Q).
Proof. by split_and!. Qed.

Section fallback.

Lemma first_match_None ent_label (d : list (string * string)) :
  first_match ent_label d = None
  ↔ Forall (λ item, contains ent_label (lower (as_pystr item.2)) = false
                    ∧ contains (replace_char " " "_" ent_label) item.1 = false) d.
Proof.
  induction d as [|[slug full_label] d IH]; simpl.
  - split; [constructor | done].
  - rewrite Forall_cons, <-IH. simpl.
    destruct (contains ent_label _), (contains _ slug); simpl; naive_solver.
Qed.

Lemma unknown_not_diagnosed fs s :
  ¬ known fs (as_pystr s) → differential_diagnosis fs [s] = [].
Proof.
  intros Hk%dec_stable.
  unfold differential_diagnosis, abductive_explanation, add_symptom.
  simpl. by rewrite Hk.
Qed.

End fallback.

(** C4, as the code has it: a mention that no entry of the symptom label
    table matches resolves to its own slug; when the store has no clause for
    that slug the ranking is empty, and the report is then the notice alone:
    no unexplained symptoms are listed. *)
Theorem unresolved_mention_fallback (st : kb) (mention : string) :
  no_match st mention →
  let e := mk_ent mention "SYMPTOM" in
  let slug := slugify (lower (strip mention)) in
  resolve st e = slug
  ∧ extract_symptoms st [e] = [slug]
  ∧ (¬ known (facts st) slug →
       differential_diagnosis (facts st) [slug] = []
       ∧ show_differential (differential_diagnosis (facts st) [slug]) [slug] = NoDiseases
       ∧ main_turn st [e] = Displayed [slug] [] NoDiseases).
Proof.
  intros Hno e slug. apply first_match_None in Hno.
  assert (Hres : resolve st e = slug).
  { unfold resolve. simpl. rewrite Hno. apply as_pystr_slugify. }
  assert (Hex : extract_symptoms st [e] = [slug]).
  { unfold extract_symptoms. rewrite filter_cons, decide_True by done.
    rewrite filter_nil. simpl. by rewrite Hres. }
  split_and!; [done | done |].
  intros Hk.
  assert (Hdd : differential_diagnosis (facts st) [slug] = []).
  { apply unknown_not_diagnosed. unfold slug. by rewrite as_pystr_slugify. }
  unfold main_turn. rewrite Hex, Hdd. done.
Qed.

Lemma unresolved_mention_fallback_witness :
  no_match (load_prolog_from_xlsx [mk_row "Cold" "UMLS:C0010200_cough"] empty_kb) "headache"
  ∧ extract_symptoms
      (load_prolog_from_xlsx [mk_row "Cold" "UMLS:C0010200_cough"] empty_kb)
      [mk_ent "headache" "SYMPTOM"]
    = ["umls_headache"].
Proof.
  assert (Hno : no_match
    (load_prolog_from_xlsx [mk_row "Cold" "UMLS:C0010200_cough"] empty_kb) "headache").
  { repeat constructor. }
  split; [exact Hno|].
  exact (proj1 (proj2 (unresolved_mention_fallback _ "headache" Hno))).
Defined.

(** C4, as the claim has it, fails.  The mention [headache] matches
    nothing, resolves to [umls_headache] and gets an empty ranking, but the
    report returns at the notice and does not list [umls_headache] as
    unexplained.  And a mention may match no entry while its slug is a
    symptom of the knowledge base: the ranking is then not empty. *)
Lemma unresolved_mention_not_reported :
  let st := load_prolog_from_xlsx [mk_row "Cold" "UMLS:C0010200_cough"] empty_kb in
  let symptoms := extract_symptoms st [mk_ent "headache" "SYMPTOM"] in
  let ranked := differential_diagnosis (facts st) symptoms in
  let st' := load_prolog_from_xlsx [mk_row "Grippe" "sore throat"] empty_kb in
  let symptoms' := extract_symptoms st' [mk_ent "sore:throat" "SYMPTOM"] in
  (first_match "headache" (symptom_label_map st) = None
   ∧ symptoms = ["umls_headache"]
   ∧ ranked = []
   ∧ show_differential ranked symptoms = NoDiseases
   ∧ report_unexplained (show_differential ranked symptoms) ≠ ["umls_headache"])
  ∧ (first_match "sore:throat" (symptom_label_map st') = None
     ∧ symptoms' = ["umls_sore_throat"]
     ∧ differential_diagnosis (facts st') symptoms'
       = [("umls_grippe", {[ "umls_sore_throat" ]})]).
Proof. vm_compute. split_and!; done. Qed.

(** ** The worked example *)

(** C9, as the code has it: from the two records for Flu and Cold and the
    mentions [fever] and [cough], the observed slugs are those of fever and
    cough; the ranking is [umls_flu] with both symptoms, then [umls_cold]
    with cough; the most plausible list is the rank 1 entry only; nothing is
    unexplained. *)
Theorem example_flu_cold :
  let st := load_prolog_from_xlsx
              [ mk_row "Flu" "UMLS:C0015967_fever, UMLS:C0010200_cough";
                mk_row "Cold" "UMLS:C0010200_cough" ] empty_kb in
  let symptoms := extract_symptoms st [mk_ent "fever" "SYMPTOM"; mk_ent "cough" "SYMPTOM"] in
  let ranked := differential_diagnosis (facts st) symptoms in
  let r := show_differential ranked symptoms in
  symptoms = ["umls_c0015967_fever"; "umls_c0010200_cough"]
  ∧ ranked = [ ("umls_flu", {[ "umls_c0015967_fever"; "umls_c0010200_cough" ]});
               ("umls_cold", {[ "umls_c0010200_cough" ]}) ]
  ∧ report_top r = [ (1, "umls_flu", {[ "umls_c0015967_fever"; "umls_c0010200_cough" ]}) ]
  ∧ report_unexplained r = [].
Proof. vm_compute. split_and!; done. Qed.

(** C9, as the claim has it, fails on the disease slug: the record's
    disease label is [Flu], which carries no code, so the first ranked slug
    is [umls_flu] and not [umls_c0015967_flu]. *)
Lemma example_flu_slug_has_no_code :
  let st := load_prolog_from_xlsx
              [ mk_row "Flu" "UMLS:C0015967_fever, UMLS:C0010200_cough";
                mk_row "Cold" "UMLS:C0010200_cough" ] empty_kb in
  let symptoms := extract_symptoms st [mk_ent "fever" "SYMPTOM"; mk_ent "cough" "SYMPTOM"] in
  let ranked := differential_diagnosis (facts st) symptoms in
  slugify "Flu" = "umls_flu"
  ∧ ranked.*1 = ["umls_flu"; "umls_cold"]
  ∧ ranked.*1 !! 0 ≠ Some "umls_c0015967_flu".
Proof. vm_compute. split_and!; done. Qed.

(** * Further properties of the code *)

Example human_label_doc_code : human_label "umls_c0008031_pain_chest" true = "C0008031: pain chest".
Proof. reflexivity. Qed.

Example human_label_doc_plain : human_label "umls_c0008031_pain_chest" false = "pain chest".
Proof. reflexivity. Qed.

Example human_label_no_code : human_label "umls_flu" SHOW_CODE = "flu".
Proof. reflexivity. Qed.

Example ruler_patterns :
  load_symptoms_for_ruler
    [ mk_row "Flu" "UMLS:C0015967_Fever, UMLS:C0010200_cough"; mk_row "Cold" "UMLS:C0010200_cough" ]
  = {[ "fever"; "cough" ]}.
Proof. vm_compute. done. Qed.

(** ** More on [slugify] and [as_pystr] *)

Section strings.

Lemma smap_smap f g s : smap f (smap g s) = smap (λ c, f (g c)) s.
Proof. induction s as [|c s IH]; simpl; [done|]. by rewrite IH. Qed.

Lemma smap_ext f g s : (∀ c, f c = g c) → smap f s = smap g s.
Proof. intros Hfg. induction s as [|c s IH]; simpl; [done|]. by rewrite Hfg, IH. Qed.

Lemma smap_empty f s : smap f s = EmptyString ↔ s = EmptyString.
Proof. by destruct s. Qed.

Lemma lstrip_smap f s :
  (∀ c, is_space (f c) = is_space c) → lstrip (smap f s) = smap f (lstrip s).
Proof.
  intros Hf. induction s as [|c s IH]; simpl; [done|].
  rewrite Hf. by destruct (is_space c).
Qed.

Lemma rstrip_smap f s :
  (∀ c, is_space (f c) = is_space c) → rstrip (smap f s) = smap f (rstrip s).
Proof.
  intros Hf. induction s as [|c s IH]; simpl; [done|].
  rewrite IH, Hf. destruct (rstrip s); simpl; [|done]. by destruct (is_space c).
Qed.

Lemma strip_smap f s :
  (∀ c, is_space (f c) = is_space c) → strip (smap f s) = smap f (strip s).
Proof. intros Hf. unfold strip. by rewrite lstrip_smap, rstrip_smap. Qed.

Lemma drop_umls_prefix_smap f s :
  (∀ c, lower_char (f c) = lower_char c) →
  drop_umls_prefix (smap f s) = smap f (drop_umls_prefix s).
Proof.
  intros Hf. destruct s as [|c1 [|c2 [|c3 [|c4 [|c5 s]]]]]; try done.
  cbn [smap drop_umls_prefix lower]. rewrite !Hf. by destruct (String.eqb _ _).
Qed.

Lemma slugify_norm x :
  slugify x
  = let t := sfilter is_slug_char (smap norm_char (drop_umls_prefix (strip x))) in
    if startswith "umls_" t then t else "umls_" +:+ t.
Proof.
  unfold slugify, lower, replace_char. by rewrite !smap_smap.
Qed.

(** A change of characters that [slugify] does not see. *)
Lemma slugify_smap f x :
  (∀ c, is_space (f c) = is_space c) →
  (∀ c, lower_char (f c) = lower_char c) →
  (∀ c, norm_char (f c) = norm_char c) →
  slugify (smap f x) = slugify x.
Proof.
  intros Hsp Hlo Hno. rewrite !slugify_norm.
  rewrite strip_smap, drop_umls_prefix_smap, smap_smap by done.
  by rewrite (smap_ext _ norm_char) by done.
Qed.

Lemma lower_char_facts c :
  is_space (lower_char c) = is_space c
  ∧ lower_char (lower_char c) = lower_char c
  ∧ norm_char (lower_char c) = norm_char c.
Proof. destruct c as [[] [] [] [] [] [] [] []]; vm_compute; done. Qed.

Lemma slugify_lower x : slugify (lower x) = slugify x.
Proof. apply slugify_smap; intros c; by destruct (lower_char_facts c) as (? & ? & ?). Qed.

Lemma lstrip_head s :
  lstrip s = EmptyString ∨ ∃ c s', lstrip s = String c s' ∧ is_space c = false.
Proof.
  induction s as [|c s IH]; simpl; [by left|].
  destruct (is_space c) eqn:Hc; [done|]. right. eauto.
Qed.

Lemma rstrip_head c s :
  is_space c = false → ∃ s', rstrip (String c s) = String c s'.
Proof. intros Hc. simpl. rewrite Hc. destruct (rstrip s); eauto. Qed.

Lemma rstrip_idem s : rstrip (rstrip s) = rstrip s.
Proof.
  induction s as [|c s IH]; simpl; [done|].
  destruct (rstrip s) as [|c' r] eqn:Hr.
  - destruct (is_space c) eqn:Hc; simpl; [done|]. by rewrite Hc.
  - cbn [rstrip] in *. by rewrite IH.
Qed.

Lemma strip_idem s : strip (strip s) = strip s.
Proof.
  unfold strip. destruct (lstrip_head s) as [->|(c & s' & -> & Hc)]; [done|].
  destruct (rstrip_head c s' Hc) as [r Hr]. rewrite Hr.
  cbn [lstrip]. rewrite Hc, <-Hr. apply rstrip_idem.
Qed.

Lemma sall_lstrip p s : sall p s = true → sall p (lstrip s) = true.
Proof.
  induction s as [|c s IH]; simpl; [done|].
  intros [Hc Hs]%andb_prop. destruct (is_space c); [auto|]. simpl. by rewrite Hc, Hs.
Qed.

Lemma sall_rstrip p s : sall p s = true → sall p (rstrip s) = true.
Proof.
  induction s as [|c s IH]; simpl; [done|].
  intros [Hc Hs]%andb_prop. specialize (IH Hs).
  destruct (rstrip s); [destruct (is_space c)|]; simpl in *; by rewrite ?Hc, ?IH.
Qed.

Lemma sall_drop_umls_prefix p s : sall p s = true → sall p (drop_umls_prefix s) = true.
Proof.
  destruct s as [|c1 [|c2 [|c3 [|c4 [|c5 s]]]]]; try done.
  intros H. cbn [drop_umls_prefix]. destruct (String.eqb _ _); [|done].
  simpl in H. by repeat (apply andb_prop in H as [_ H]).
Qed.

Lemma sfilter_smap_none p f s :
  sall (λ c, negb (p (f c))) s = true → sfilter p (smap f s) = EmptyString.
Proof.
  induction s as [|c s IH]; simpl; [done|].
  intros [Hc Hs]%andb_prop. apply negb_true_iff in Hc. by rewrite Hc, IH.
Qed.

Lemma sfilter_idem p s : sfilter p (sfilter p s) = sfilter p s.
Proof. apply sfilter_id, sall_sfilter. Qed.

Lemma slugify_shape x : is_slug (slugify x) ∧ as_pystr (slugify x) = slugify x.
Proof.
  split; [split|]; [apply slugify_startswith | apply slugify_chars | apply as_pystr_slugify].
Qed.

End strings.

(** X1: every result of [slugify] is a well-formed slug: it starts with the
    marker [umls_], holds only letters a-z, digits and underscores, and is
    left alone by [as_pystr]. *)
Theorem slugify_well_formed (x : string) :
  is_slug (slugify x) ∧ as_pystr (slugify x) = slugify x.
Proof. apply slugify_shape. Qed.

(** X2: [slugify] does not see the case of letters: two raw labels with the
    same lower-case form get the same slug, and a label and its lower-case
    form do. *)
Theorem slugify_ignores_case (x y : string) :
  lower x = lower y → slugify x = slugify y ∧ slugify (lower x) = slugify x.
Proof.
  intros Hxy. split; [|apply slugify_lower].
  by rewrite <-(slugify_lower x), <-(slugify_lower y), Hxy.
Qed.

Lemma slugify_ignores_case_witness :
  lower "Chest Pain" = lower "CHEST pain" ∧ slugify "Chest Pain" = slugify "CHEST pain".
Proof.
  assert (H : lower "Chest Pain" = lower "CHEST pain") by reflexivity.
  split; [exact H|]. exact (proj1 (slugify_ignores_case "Chest Pain" "CHEST pain" H)).
Defined.

(** X3: [slugify] does not see the white space around a raw label, and
    stripping twice is stripping once. *)
Theorem slugify_ignores_outer_space (x : string) :
  strip (strip x) = strip x ∧ slugify (strip x) = slugify x.
Proof.
  split; [apply strip_idem|]. unfold slugify. by rewrite strip_idem.
Qed.

(** X4: a raw label none of whose characters gives a slug character (a
    letter, a digit, an underscore, or a colon or space, which become
    underscores) is sent to the bare marker [umls_]. *)
Theorem slugify_invalid_input (x : string) :
  sall (λ c, negb (is_slug_char (norm_char c))) x = true → slugify x = "umls_".
Proof.
  intros Hx. rewrite slugify_norm. cbv zeta.
  rewrite sfilter_smap_none; [done|].
  by apply sall_drop_umls_prefix, sall_rstrip, sall_lstrip.
Qed.

Lemma slugify_invalid_input_witness :
  sall (λ c, negb (is_slug_char (norm_char c))) "(?!)-" = true
  ∧ slugify "(?!)-" = "umls_".
Proof.
  assert (H : sall (λ c, negb (is_slug_char (norm_char c))) "(?!)-" = true) by reflexivity.
  split; [exact H|]. exact (slugify_invalid_input "(?!)-" H).
Defined.

(** X5: [as_pystr] returns ASCII characters only, keeps every ASCII string
    as it is, and so does nothing the second time. *)
Theorem as_pystr_ascii (x : string) :
  sall is_ascii (as_pystr x) = true
  ∧ (sall is_ascii x = true → as_pystr x = x)
  ∧ as_pystr (as_pystr x) = as_pystr x.
Proof.
  split_and!; [apply sall_sfilter | apply sfilter_id | apply sfilter_idem].
Qed.

(** ** Rendering: [human_label] *)

Section rendering.

Lemma sall_app p a b : sall p (a +:+ b) = sall p a && sall p b.
Proof. induction a as [|c a IH]; simpl; [done|]. by rewrite IH, andb_assoc. Qed.

Lemma sall_smap p f s : (∀ c, p (f c) = true) → sall p (smap f s) = true.
Proof. intros Hf. induction s as [|c s IH]; simpl; [done|]. by rewrite Hf, IH. Qed.

Lemma sall_take_line p s : sall p s = true → sall p (take_line s) = true.
Proof.
  induction s as [|c s IH]; simpl; [done|].
  intros [Hc Hs]%andb_prop. destruct (Ascii.eqb c "010"); [done|].
  simpl. by rewrite Hc, IH.
Qed.

Lemma span_digits_fst s : sall is_digit (span_digits s).1 = true.
Proof.
  induction s as [|c s IH]; simpl; [done|].
  destruct (is_digit c) eqn:Hc; simpl; [|done]. by rewrite Hc, IH.
Qed.

Lemma span_digits_app ds c rest :
  sall is_digit ds = true → is_digit c = false →
  span_digits (ds +:+ String c rest) = (ds, String c rest).
Proof.
  intros Hds Hc. induction ds as [|d ds IH]; simpl.
  - by rewrite Hc.
  - simpl in Hds. apply andb_prop in Hds as [Hd Hds]. by rewrite Hd, IH.
Qed.

Lemma digit_char_facts c :
  is_digit c = true →
  upper_char c = c ∧ no_underscore c = true ∧ is_slug_char c = true.
Proof.
  destruct c as [[] [] [] [] [] [] [] []]; vm_compute;
    first [ discriminate | done ].
Qed.

Lemma letter_c_facts (b : bool) (c : ascii) :
  Ascii.eqb (if b then lower_char c else c) "c"%char = true → upper_char c = "C"%char.
Proof.
  destruct b, c as [[] [] [] [] [] [] [] []]; vm_compute;
    first [ discriminate | done ].
Qed.

Lemma upper_digits ds : sall is_digit ds = true → upper ds = ds.
Proof.
  intros H. apply (smap_id _ is_digit); [|done].
  intros c Hc. by destruct (digit_char_facts c Hc).
Qed.

(** What [match_code] returns: the letter and its digits, at least one. *)
Lemma match_code_Some b s code rest :
  match_code b s = Some (code, rest) →
  ∃ ds, ds ≠ EmptyString ∧ sall is_digit ds = true ∧ upper code = "C" +:+ ds
        ∧ ∃ c, s = String c (ds +:+ String "_" rest).
Proof.
  destruct s as [|c s]; [done|]. cbn [match_code].
  destruct (Ascii.eqb (if b then lower_char c else c) "c") eqn:Hc; [|done].
  pose proof (span_digits_fst s) as Hds.
  assert (Hsplit : s = (span_digits s).1 +:+ (span_digits s).2).
  { clear. induction s as [|c s IH]; simpl; [done|].
    destruct (is_digit c); simpl; [exact (f_equal (String c) IH) | reflexivity]. }
  destruct (span_digits s) as [[|d ds] [|us r]]; try done. simpl in Hds, Hsplit.
  destruct (Ascii.eqb us "_") eqn:Hus; [|done]. apply Ascii.eqb_eq in Hus as ->.
  intros [= <- <-]. exists (String d ds). repeat split.
  - done.
  - done.
  - cbn [upper smap]. change (String ?a (String ?b ?x) = "C" +:+ String d ds)
      with (String a (String b x) = String "C" (String d ds)).
    f_equal; [by eapply letter_c_facts|].
    change (upper (String d ds) = String d ds). by apply upper_digits.
  - exists c. by rewrite Hsplit.
Qed.

Lemma match_code_no_digit b s :
  sall (λ c, negb (is_digit c)) s = true → match_code b s = None.
Proof.
  destruct s as [|c [|d s]]; try done; cbn [match_code];
    destruct (Ascii.eqb _ "c"); try done.
  intros H. simpl in H. apply andb_prop in H as [_ [Hd _]%andb_prop].
  apply negb_true_iff in Hd. simpl. by rewrite Hd.
Qed.

Lemma take_line_id s : sall is_slug_char s = true → take_line s = s.
Proof.
  induction s as [|c s IH]; simpl; [done|].
  intros [Hc Hs]%andb_prop. rewrite IH by done.
  destruct (Ascii.eqb c "010") eqn:Hnl; [|done].
  apply Ascii.eqb_eq in Hnl as ->. done.
Qed.

Lemma rstrip_no_space s : sall (λ c, negb (is_space c)) s = true → rstrip s = s.
Proof.
  induction s as [|c s IH]; simpl; [done|].
  intros [Hc Hs]%andb_prop. rewrite (IH Hs). apply negb_true_iff in Hc.
  destruct s; [by rewrite Hc | done].
Qed.

Lemma slug_char_no_space s :
  sall is_slug_char s = true → sall (λ c, negb (is_space c)) s = true.
Proof.
  apply sall_impl. intros c Hc. by destruct (slug_char_facts c Hc) as [-> _].
Qed.

Lemma norm_char_slug c : is_slug_char c = true → norm_char c = c.
Proof.
  destruct c as [[] [] [] [] [] [] [] []]; vm_compute; first [ discriminate | done ].
Qed.

End rendering.

(** X6: a rendered label never holds an underscore, with or without the
    code. *)
Theorem human_label_no_underscore (slug : string) (show_code : bool) :
  sall no_underscore (human_label slug show_code) = true.
Proof.
  assert (Hrep : ∀ l, sall no_underscore (replace_char "_" " " l) = true).
  { intros l. apply sall_smap. intros c. unfold no_underscore.
    destruct (Ascii.eqb c "_") eqn:Hc; [done|]. by rewrite Hc. }
  unfold human_label. destruct (code_match (as_pystr slug)) as [[code label]|] eqn:Hm;
    [|apply Hrep].
  destruct show_code; [|apply Hrep].
  rewrite !sall_app, Hrep.
  change (sall no_underscore ": ") with true. rewrite !andb_true_r.
  unfold code_match in Hm. destruct (match_umls_sep _) as [rest|]; [|done].
  destruct (match_code true rest) as [[code' after]|] eqn:Hc; [|done].
  destruct (take_line after); [done|]. injection Hm as <- _.
  apply match_code_Some in Hc as (ds & _ & Hds & -> & _).
  rewrite sall_app. change (sall no_underscore "C") with true.
  apply (sall_impl is_digit); [|done].
  intros c Hc. by destruct (digit_char_facts c Hc) as (_ & ? & _).
Qed.

(** X7: showing the code only ever puts the code in upper case, a colon and
    a space before the label shown without it; a slug with no code that can
    be told is rendered the same in both modes. *)
Theorem human_label_show_code (slug : string) :
  human_label slug true = human_label slug false
  ∨ ∃ ds, ds ≠ EmptyString ∧ sall is_digit ds = true
          ∧ human_label slug true = "C" +:+ ds +:+ ": " +:+ human_label slug false.
Proof.
  unfold human_label. destruct (code_match (as_pystr slug)) as [[code label]|] eqn:Hm;
    [right | by left].
  unfold code_match in Hm. destruct (match_umls_sep _) as [rest|]; [|done].
  destruct (match_code true rest) as [[code' after]|] eqn:Hc; [|done].
  destruct (take_line after); [done|]. injection Hm as <- _.
  apply match_code_Some in Hc as (ds & Hne & Hds & -> & _).
  exists ds. split_and!; [done | done | reflexivity].
Qed.

(** X8: a coded raw label [UMLS:C<digits>_<body>], the body in slug
    characters, goes to the slug [umls_c<digits>_<body>], which is rendered
    as [C<digits>: <body>] with the code and as [<body>] without it, the
    underscores of the body turned to spaces. *)
Theorem human_label_of_coded_label (ds body : string) :
  ds ≠ EmptyString → sall is_digit ds = true →
  body ≠ EmptyString → sall is_slug_char body = true →
  let raw := "UMLS:C" +:+ ds +:+ "_" +:+ body in
  slugify raw = "umls_c" +:+ ds +:+ "_" +:+ body
  ∧ human_label (slugify raw) true = "C" +:+ ds +:+ ": " +:+ replace_char "_" " " body
  ∧ human_label (slugify raw) false = replace_char "_" " " body.
Proof.
  intros Hds0 Hds Hb0 Hb raw.
  set (t := ds +:+ String "_" body).
  assert (Ht : sall is_slug_char t = true).
  { unfold t. rewrite sall_app. simpl. rewrite Hb, andb_true_r.
    apply (sall_impl is_digit); [|done].
    intros c Hc. by destruct (digit_char_facts c Hc) as (_ & _ & ?). }
  assert (Hslug : slugify raw = "umls_c" +:+ t).
  { rewrite slugify_norm. unfold raw, strip.
    change ("UMLS:C" +:+ ds +:+ "_" +:+ body) with ("UMLS:C" +:+ t).
    change (lstrip ("UMLS:C" +:+ t)) with ("UMLS:C" +:+ t).
    rewrite rstrip_no_space
      by (rewrite sall_app; simpl; by apply slug_char_no_space).
    change (drop_umls_prefix ("UMLS:C" +:+ t)) with (String "C" t).
    cbn [smap]. rewrite (smap_id norm_char is_slug_char t) by (apply norm_char_slug || done).
    change (norm_char "C") with "c"%char.
    cbn [sfilter]. change (is_slug_char "c") with true. cbv iota.
    by rewrite (sfilter_id _ t Ht). }
  assert (Hm : code_match (as_pystr (slugify raw)) = Some (String "c" ds, body)).
  { rewrite as_pystr_slugify, Hslug. unfold code_match.
    change (match_umls_sep ("umls_c" +:+ t)) with (Some (String "c" t)).
    cbn [match_code]. change (Ascii.eqb (lower_char "c") "c") with true. cbv iota.
    unfold t. rewrite span_digits_app by done.
    destruct ds as [|d ds']; [done|]. change (Ascii.eqb "_" "_") with true. cbv iota.
    rewrite take_line_id by done. by destruct body. }
  split_and!; [done | |]; unfold human_label; rewrite Hm; [|done].
  cbn [upper smap]. change (upper_char "c") with "C"%char.
  change (smap upper_char ds) with (upper ds). by rewrite upper_digits.
Qed.

Lemma human_label_of_coded_label_witness :
  ("0008031" ≠ EmptyString ∧ sall is_digit "0008031" = true
   ∧ "pain_chest" ≠ EmptyString ∧ sall is_slug_char "pain_chest" = true)
  ∧ human_label (slugify "UMLS:C0008031_pain_chest") true = "C0008031: pain chest".
Proof.
  assert (H1 : "0008031" ≠ EmptyString) by discriminate.
  assert (H2 : sall is_digit "0008031" = true) by reflexivity.
  assert (H3 : "pain_chest" ≠ EmptyString) by discriminate.
  assert (H4 : sall is_slug_char "pain_chest" = true) by reflexivity.
  split; [done|].
  exact (proj1 (proj2 (human_label_of_coded_label "0008031" "pain_chest" H1 H2 H3 H4))).
Defined.

Section plain_labels.

Lemma plain_char_facts c :
  is_plain_char c = true →
  Ascii.eqb (lower_char c) ":" = false
  ∧ norm_char c = (if Ascii.eqb c " " then "_" else c)%char
  ∧ is_slug_char (norm_char c) = true
  ∧ is_digit (norm_char c) = false
  ∧ (if Ascii.eqb (norm_char c) "_" then " " else norm_char c)%char = c.
Proof.
  destruct c as [[] [] [] [] [] [] [] []]; vm_compute; first [ discriminate | done ].
Qed.

Lemma plain_char_marker c :
  is_plain_char c = true →
  Ascii.eqb "u" (norm_char c) = Ascii.eqb "u" c
  ∧ Ascii.eqb "m" (norm_char c) = Ascii.eqb "m" c
  ∧ Ascii.eqb "l" (norm_char c) = Ascii.eqb "l" c
  ∧ Ascii.eqb "s" (norm_char c) = Ascii.eqb "s" c
  ∧ Ascii.eqb "_" (norm_char c) = Ascii.eqb " " c.
Proof.
  destruct c as [[] [] [] [] [] [] [] []]; vm_compute; first [ discriminate | done ].
Qed.

Lemma sall_smap_impl (p q : ascii → bool) f s :
  (∀ c, p c = true → q (f c) = true) → sall p s = true → sall q (smap f s) = true.
Proof.
  intros Hf. induction s as [|c s IH]; simpl; [done|].
  intros [Hc Hs]%andb_prop. by rewrite (Hf c Hc), IH.
Qed.

Lemma smap_ext_sall (p : ascii → bool) f g s :
  (∀ c, p c = true → f c = g c) → sall p s = true → smap f s = smap g s.
Proof.
  intros Hf. induction s as [|c s IH]; simpl; [done|].
  intros [Hc Hs]%andb_prop. by rewrite (Hf c Hc), IH.
Qed.

Lemma drop_umls_prefix_plain t : sall is_plain_char t = true → drop_umls_prefix t = t.
Proof.
  destruct t as [|c1 [|c2 [|c3 [|c4 [|c5 t]]]]]; try done.
  intros H. cbn [drop_umls_prefix].
  destruct (String.eqb _ _) eqn:He; [|done].
  apply String.eqb_eq in He. cbn [lower smap] in He. injection He as _ _ _ _ He.
  simpl in H. repeat (apply andb_prop in H as [? H]).
  destruct (plain_char_facts c5) as [Hc5 _]; [done|].
  rewrite He in Hc5. done.
Qed.

Lemma startswith_marker_plain t :
  sall is_plain_char t = true →
  startswith "umls_" (smap norm_char t) = startswith "umls " t.
Proof.
  intros H.
  destruct t as [|c1 t]; [done|]. simpl in H. apply andb_prop in H as [H1 H].
  cbn [smap startswith]. destruct (plain_char_marker c1 H1) as (-> & _).
  destruct (Ascii.eqb "u" c1); [|done]. cbn [andb].
  destruct t as [|c2 t]; [done|]. simpl in H. apply andb_prop in H as [H2 H].
  cbn [smap startswith]. destruct (plain_char_marker c2 H2) as (_ & -> & _).
  destruct (Ascii.eqb "m" c2); [|done]. cbn [andb].
  destruct t as [|c3 t]; [done|]. simpl in H. apply andb_prop in H as [H3 H].
  cbn [smap startswith]. destruct (plain_char_marker c3 H3) as (_ & _ & -> & _).
  destruct (Ascii.eqb "l" c3); [|done]. cbn [andb].
  destruct t as [|c4 t]; [done|]. simpl in H. apply andb_prop in H as [H4 H].
  cbn [smap startswith]. destruct (plain_char_marker c4 H4) as (_ & _ & _ & -> & _).
  destruct (Ascii.eqb "s" c4); [|done]. cbn [andb].
  destruct t as [|c5 t]; [done|]. simpl in H. apply andb_prop in H as [H5 H].
  cbn [smap startswith]. by destruct (plain_char_marker c5 H5) as (_ & _ & _ & _ & ->).
Qed.

End plain_labels.

(** X9: a plain label, of lower-case letters and spaces, with no space at
    either end and not starting with [umls] and a space, goes to the slug
    made of the marker and the label with its spaces turned to underscores,
    and that slug is rendered as the label itself, in both modes. *)
Theorem human_label_of_plain_label (t : string) (show_code : bool) :
  sall is_plain_char t = true → strip t = t → startswith "umls " t = false →
  slugify t = "umls_" +:+ replace_char " " "_" t
  ∧ human_label (slugify t) show_code = t.
Proof.
  intros Hp Hstrip Hmark.
  set (u := smap norm_char t).
  assert (Hu : sall is_slug_char u = true).
  { apply (sall_smap_impl is_plain_char); [|done].
    intros c Hc. by destruct (plain_char_facts c Hc) as (_ & _ & ? & _). }
  assert (Hnd : sall (λ c, negb (is_digit c)) u = true).
  { apply (sall_smap_impl is_plain_char); [|done].
    intros c Hc. destruct (plain_char_facts c Hc) as (_ & _ & _ & -> & _). done. }
  assert (Hslug : slugify t = "umls_" +:+ u).
  { rewrite slugify_norm, Hstrip, drop_umls_prefix_plain by done. fold u. cbv zeta.
    rewrite (sfilter_id _ u Hu). unfold u.
    by rewrite startswith_marker_plain, Hmark. }
  split.
  - rewrite Hslug. f_equal. unfold u, replace_char.
    apply (smap_ext_sall is_plain_char); [|done].
    intros c Hc. by destruct (plain_char_facts c Hc) as (_ & -> & _).
  - unfold human_label. rewrite as_pystr_slugify, Hslug.
    unfold code_match, drop_umls_sep, drop_code.
    change (match_umls_sep ("umls_" +:+ u)) with (Some u).
    rewrite !match_code_no_digit by done.
    unfold u, replace_char. rewrite smap_smap.
    apply (smap_id _ is_plain_char); [|done].
    intros c Hc. by destruct (plain_char_facts c Hc) as (_ & _ & _ & _ & ?).
Qed.

Lemma human_label_of_plain_label_witness :
  (sall is_plain_char "chest pain" = true ∧ strip "chest pain" = "chest pain"
   ∧ startswith "umls " "chest pain" = false)
  ∧ human_label (slugify "chest pain") true = "chest pain".
Proof.
  assert (H1 : sall is_plain_char "chest pain" = true) by reflexivity.
  assert (H2 : strip "chest pain" = "chest pain") by reflexivity.
  assert (H3 : startswith "umls " "chest pain" = false) by reflexivity.
  split; [done|].
  exact (proj2 (human_label_of_plain_label "chest pain" true H1 H2 H3)).
Defined.

(** ** The knowledge base after a load *)

Section knowledge_base.

Implicit Types (rows : list row) (st : kb).

Lemma split_nonempty sep s : split sep s ≠ [].
Proof.
  induction s as [|c s IH]; simpl; [done|].
  destruct (Ascii.eqb c sep); [done|]. by destruct (split sep s).
Qed.

Lemma facts_load_symptoms d pieces st :
  facts (fold_left (load_symptom (slugify d)) pieces st)
  = facts st ++ ((λ raw, (slugify d, slugify raw)) <$> ((λ p, strip (as_pystr p)) <$> pieces)).
Proof.
  revert st. induction pieces as [|p pieces IH]; intros st; simpl.
  - by rewrite app_nil_r.
  - rewrite IH. simpl. rewrite !as_pystr_slugify, <-app_assoc. done.
Qed.

Lemma facts_load rows st :
  facts (load_prolog_from_xlsx rows st) = facts st ++ (rows ≫= row_facts).
Proof.
  revert st. induction rows as [|r rows IH]; intros st; simpl.
  - by rewrite app_nil_r.
  - rewrite IH. unfold load_row. rewrite facts_load_symptoms. simpl.
    by rewrite <-app_assoc.
Qed.

Lemma last_label_is_Some slug raws :
  is_Some (last_label slug raws) ↔ slug ∈ slugify <$> raws.
Proof.
  unfold last_label. rewrite list_elem_of_fmap. split.
  - intros [raw Hraw]. apply last_Some_elem_of, list_elem_of_filter in Hraw as [? ?]. eauto.
  - intros (raw & -> & Hin).
    assert (Hf : raw ∈ filter (λ r, slugify r = slugify raw) raws)
      by by apply list_elem_of_filter.
    destruct (filter _ raws) as [|x l] using rev_ind; [by apply elem_of_nil in Hf|].
    rewrite last_snoc. eauto.
Qed.

Lemma keys_assign_all k raws (d : list (string * string)) :
  k ∈ (assign_all raws d).*1 ↔ k ∈ d.*1 ∨ k ∈ slugify <$> raws.
Proof.
  rewrite <-!get_is_Some, get_assign_all, <-last_label_is_Some.
  destruct (last_label k raws); naive_solver.
Qed.

Lemma keys_set {V} k (v : V) (d : list (string * V)) :
  (Dict.set k v d).*1 = if decide (k ∈ d.*1) then d.*1 else d.*1 ++ [k].
Proof.
  induction d as [|[k0 v0] d IH].
  - by rewrite decide_False by apply not_elem_of_nil.
  - cbn [Dict.set]. rewrite !fmap_cons. simpl fst.
    destruct (decide (k0 = k)) as [->|Hne].
    + by rewrite decide_True by left.
    + rewrite fmap_cons, IH. simpl fst. destruct (decide (k ∈ d.*1)).
      * by rewrite decide_True by (by right).
      * rewrite decide_False; [done|]. by intros [?|?]%elem_of_cons.
Qed.

Lemma filter_filter_absorb (x : string) (acc l : list string) :
  x ∈ acc → filter (λ y, y ∉ acc) (filter (λ y, y ≠ x) l) = filter (λ y, y ∉ acc) l.
Proof.
  intros Hx. induction l as [|y l IH]; [done|].
  rewrite (filter_cons (λ y, y ≠ x)). destruct (decide (y ≠ x)) as [Hne|Heq].
  - rewrite !filter_cons, IH. done.
  - apply dec_stable in Heq as ->. rewrite IH, (filter_cons _ x l).
    by rewrite decide_False by (intros ?; done).
Qed.

Lemma filter_snoc_absent (x : string) (acc l : list string) :
  filter (λ y, y ∉ acc ++ [x]) l = filter (λ y, y ∉ acc) (filter (λ y, y ≠ x) l).
Proof.
  induction l as [|y l IH]; [done|].
  rewrite (filter_cons (λ y, y ≠ x)), filter_cons, IH.
  destruct (decide (y ≠ x)) as [Hne|Heq].
  - rewrite (filter_cons (λ y, y ∉ acc)).
    destruct (decide (y ∉ acc ++ [x])) as [H1|H1], (decide (y ∉ acc)) as [H2|H2];
      try done; set_solver.
  - apply dec_stable in Heq as ->. rewrite decide_False; [done|]. set_solver.
Qed.

(** The keys after assigning the labels of [raws]: the old keys, then the
    new slugs in the order they are first met. *)
Lemma keys_assign_all_order raws (d : list (string * string)) :
  (assign_all raws d).*1
  = d.*1 ++ filter (λ k, k ∉ d.*1) (dedup_first (slugify <$> raws)).
Proof.
  unfold assign_all. revert d. induction raws as [|raw raws IH]; intros d.
  - simpl. by rewrite app_nil_r.
  - cbn [fold_left]. rewrite IH, keys_set, fmap_cons. cbn [dedup_first].
    rewrite filter_cons. destruct (decide (slugify raw ∈ d.*1)) as [Hin|Hnin].
    + rewrite decide_False by (intros ?; done). by rewrite filter_filter_absorb.
    + rewrite decide_True by done. rewrite filter_snoc_absent, <-app_assoc. done.
Qed.

Lemma NoDup_dedup_first l : NoDup (dedup_first l).
Proof.
  induction l as [|x l IH]; simpl; [constructor|].
  constructor; [|by apply NoDup_filter].
  intros [Hne _]%list_elem_of_filter. done.
Qed.

Lemma elem_of_dedup_first x l : x ∈ dedup_first l ↔ x ∈ l.
Proof.
  induction l as [|y l IH]; simpl; [done|].
  rewrite !elem_of_cons, list_elem_of_filter, IH.
  destruct (decide (x = y)); naive_solver.
Qed.

Lemma elem_of_row_facts rows d s :
  (d, s) ∈ rows ≫= row_facts
  ↔ ∃ r raw, r ∈ rows ∧ raw ∈ symptom_raws_of r
             ∧ d = slugify (strip (as_pystr (Disease r))) ∧ s = slugify raw.
Proof.
  rewrite list_elem_of_bind. unfold row_facts. split.
  - intros (r & (raw & [= -> ->] & Hraw)%list_elem_of_fmap & Hr). eauto 10.
  - intros (r & raw & Hr & Hraw & -> & ->). exists r. split; [|done].
    apply list_elem_of_fmap. eauto.
Qed.

Lemma symptom_raws_of_nonempty r : symptom_raws_of r ≠ [].
Proof.
  unfold symptom_raws_of. pose proof (split_nonempty "," (as_pystr (Symptom r))).
  by destruct (split _ _).
Qed.

Lemma is_slug_fixed s : is_slug s → slugify s = s.
Proof. intros [? ?]. by apply slugify_fixed. Qed.

End knowledge_base.

(** X10: the clause store after a load into an empty knowledge base holds,
    row after row and piece after piece, the pair of the disease slug and
    the symptom slug: one clause for every comma-separated piece, repeated
    pairs included. *)
Theorem load_facts_in_order (rows : list row) :
  let st := load_prolog_from_xlsx rows empty_kb in
  facts st = rows ≫= row_facts
  ∧ length (facts st) = length (symptom_raws rows).
Proof.
  simpl. rewrite facts_load. simpl. split; [done|].
  unfold symptom_raws, row_facts.
  induction rows as [|r rows IH]; [done|].
  rewrite !bind_cons, !length_app, IH, length_fmap. done.
Qed.

(** X11: after a load the label tables and the clause store agree: a slug
    is a key of the symptom table exactly when some clause has it as symptom,
    and a key of the disease table exactly when some clause has it as
    disease. *)
Theorem load_tables_agree_with_facts (rows : list row) :
  let st := load_prolog_from_xlsx rows empty_kb in
  (∀ s, s ∈ (symptom_label_map st).*1 ↔ ∃ d, (d, s) ∈ facts st)
  ∧ (∀ d, d ∈ (disease_label_map st).*1 ↔ ∃ s, (d, s) ∈ facts st).
Proof.
  destruct (load_maps rows empty_kb) as [Hd Hs]. simpl in *.
  rewrite Hd, Hs, facts_load. simpl. split.
  - intros s. rewrite keys_assign_all. unfold symptom_raws. split.
    + intros [Hnil|(raw & -> & (r & Hraw & Hr)%list_elem_of_bind)%list_elem_of_fmap];
        [by apply elem_of_nil in Hnil|].
      exists (slugify (strip (as_pystr (Disease r)))). apply elem_of_row_facts. eauto 10.
    + intros (d & (r & raw & Hr & Hraw & _ & ->)%elem_of_row_facts). right.
      apply list_elem_of_fmap. exists raw. split; [done|]. apply list_elem_of_bind. eauto.
  - intros d. rewrite keys_assign_all. unfold disease_raws. split.
    + intros [Hnil|(raw & -> & (r & -> & Hr)%list_elem_of_fmap)%list_elem_of_fmap];
        [by apply elem_of_nil in Hnil|].
      pose proof (symptom_raws_of_nonempty r) as Hne.
      destruct (symptom_raws_of r) as [|raw raws] eqn:Hraws; [done|].
      exists (slugify raw). apply elem_of_row_facts. exists r, raw.
      rewrite Hraws. split_and!; [done | left | done | done].
    + intros (s & (r & raw & Hr & Hraw & -> & _)%elem_of_row_facts). right.
      apply list_elem_of_fmap. eexists. split; [done|]. apply list_elem_of_fmap. eauto.
Qed.

(** X12: after a load every key of the two label tables and both parts of
    every clause are well-formed slugs, which [slugify] returns unchanged. *)
Theorem load_keeps_slugs (rows : list row) :
  let st := load_prolog_from_xlsx rows empty_kb in
  (∀ k, k ∈ (disease_label_map st).*1 ∨ k ∈ (symptom_label_map st).*1 →
        is_slug k ∧ slugify k = k)
  ∧ (∀ d s, (d, s) ∈ facts st → is_slug d ∧ is_slug s).
Proof.
  destruct (load_maps rows empty_kb) as [Hd Hs]. simpl in *.
  rewrite Hd, Hs, facts_load. simpl. split.
  - intros k. rewrite !keys_assign_all.
    intros [[Hnil|(raw & -> & _)%list_elem_of_fmap]|[Hnil|(raw & -> & _)%list_elem_of_fmap]];
      try (by apply elem_of_nil in Hnil);
      (split; [apply slugify_shape | apply is_slug_fixed, slugify_shape]).
  - intros d s (r & raw & _ & _ & -> & ->)%elem_of_row_facts.
    split; apply slugify_shape.
Qed.

(** X13: the keys of each label table stand in the order their slugs were
    first met by the load, each once, whichever label each ends with. *)
Theorem load_keys_first_seen_order (rows : list row) :
  let st := load_prolog_from_xlsx rows empty_kb in
  (disease_label_map st).*1 = dedup_first (slugify <$> disease_raws rows)
  ∧ (symptom_label_map st).*1 = dedup_first (slugify <$> symptom_raws rows)
  ∧ NoDup (disease_label_map st).*1 ∧ NoDup (symptom_label_map st).*1.
Proof.
  destruct (load_maps rows empty_kb) as [Hd Hs]. simpl in *.
  rewrite Hd, Hs, !keys_assign_all_order. simpl.
  assert (Hall : ∀ l : list string, filter (λ k, k ∉ []) l = l).
  { intros l. induction l as [|x l IH]; [done|].
    rewrite filter_cons, decide_True, IH; [done | apply not_elem_of_nil]. }
  rewrite !Hall. split_and!; try done; apply NoDup_dedup_first.
Qed.



(** ** The resolver *)

Section resolver.

Implicit Types (d : list (string * string)) (item : string * string).

Lemma startswith_app p b : startswith p (p +:+ b) = true.
Proof.
  induction p as [|c p IH]; [done|].
  change (String c p +:+ b) with (String c (p +:+ b)).
  cbn [startswith]. by rewrite Ascii.eqb_refl, IH.
Qed.

Lemma startswith_empty s : startswith EmptyString s = true.
Proof. by destruct s. Qed.

Lemma contains_suffix n a b : contains n (a +:+ n +:+ b) = true.
Proof.
  induction a as [|c a IH].
  - change (EmptyString +:+ n +:+ b) with (n +:+ b).
    destruct (n +:+ b) eqn:Hnb; cbn [contains]; rewrite <-Hnb, startswith_app; done.
  - change (String c a +:+ n +:+ b) with (String c (a +:+ n +:+ b)).
    cbn [contains]. rewrite IH. apply orb_true_r.
Qed.

Lemma app_empty_r s : s +:+ EmptyString = s.
Proof.
  induction s as [|c s IH]; [done|].
  change (String c s +:+ EmptyString) with (String c (s +:+ EmptyString)). by rewrite IH.
Qed.

Lemma contains_refl s : contains s s = true.
Proof.
  pose proof (contains_suffix s EmptyString EmptyString) as H.
  change (EmptyString +:+ s +:+ EmptyString) with (s +:+ EmptyString) in H.
  by rewrite app_empty_r in H.
Qed.

Lemma contains_empty s : contains EmptyString s = true.
Proof. destruct s; cbn [contains]; by rewrite startswith_empty. Qed.

Lemma first_match_unfold ent_label d :
  first_match ent_label d
  = match d with
    | [] => None
    | item :: d' =>
        if mention_matches ent_label item then Some (as_pystr item.1)
        else first_match ent_label d'
    end.
Proof. by destruct d as [|[slug full_label] d]. Qed.

Lemma first_match_app ent_label d1 item d2 :
  Forall (λ it, mention_matches ent_label it = false) d1 →
  mention_matches ent_label item = true →
  first_match ent_label (d1 ++ item :: d2) = Some (as_pystr item.1).
Proof.
  intros Hd1 Hitem. induction Hd1 as [|it d1 Hit Hd1 IH]; simpl app.
  - by rewrite first_match_unfold, Hitem.
  - by rewrite first_match_unfold, Hit.
Qed.

Lemma first_match_Some ent_label d k :
  first_match ent_label d = Some k →
  ∃ item, item ∈ d ∧ mention_matches ent_label item = true ∧ k = as_pystr item.1.
Proof.
  induction d as [|item d IH]; rewrite first_match_unfold; [done|].
  destruct (mention_matches ent_label item) eqn:Hm.
  - intros [= <-]. exists item. split_and!; [left | done | done].
  - intros (item' & ? & ? & ?)%IH. exists item'. split_and!; [by right | done | done].
Qed.

Lemma first_match_found ent_label d item :
  item ∈ d → mention_matches ent_label item = true →
  is_Some (first_match ent_label d).
Proof.
  intros Hin Hm. induction d as [|it d IH]; [by apply elem_of_nil in Hin|].
  rewrite first_match_unfold. destruct (mention_matches ent_label it) eqn:Hit; [eauto|].
  apply IH. apply elem_of_cons in Hin as [->|?]; [congruence | done].
Qed.

(** What [resolve] returns: the key of a matching entry of the table, or
    the mention's own slug. *)
Lemma resolve_cases st e :
  (∃ item, item ∈ symptom_label_map st
           ∧ mention_matches (lower (strip (text e))) item = true
           ∧ resolve st e = as_pystr item.1)
  ∨ (first_match (lower (strip (text e))) (symptom_label_map st) = None
     ∧ resolve st e = slugify (lower (strip (text e)))).
Proof.
  unfold resolve. destruct (first_match _ _) as [k|] eqn:Hk.
  - left. apply first_match_Some in Hk as (item & ? & ? & ->). eauto.
  - right. split; [done|]. apply as_pystr_slugify.
Qed.

End resolver.

(** X15: the resolver takes the earliest entry of the symptom table that
    the mention matches: when no entry before it matches, its slug is the
    result, whatever follows in the table. *)
Theorem resolve_earliest_match (st : kb) (e : ent)
    (d1 d2 : list (string * string)) (item : string * string) :
  symptom_label_map st = d1 ++ item :: d2 →
  Forall (λ it, mention_matches (lower (strip (text e))) it = false) d1 →
  mention_matches (lower (strip (text e))) item = true →
  resolve st e = as_pystr item.1.
Proof.
  intros Hst Hd1 Hitem. unfold resolve. rewrite Hst.
  by rewrite (first_match_app _ d1 item d2 Hd1 Hitem).
Qed.

Lemma resolve_earliest_match_witness :
  (symptom_label_map (mk_kb [] [("umls_chest_pain", "chest pain"); ("umls_pain", "pain")] [])
   = [] ++ ("umls_chest_pain", "chest pain") :: [("umls_pain", "pain")]
   ∧ Forall (λ it, mention_matches (lower (strip "Pain")) it = false) []
   ∧ mention_matches (lower (strip "Pain")) ("umls_chest_pain", "chest pain") = true)
  ∧ resolve (mk_kb [] [("umls_chest_pain", "chest pain"); ("umls_pain", "pain")] [])
            (mk_ent "Pain" "SYMPTOM")
    = "umls_chest_pain".
Proof.
  assert (H1 : symptom_label_map
                 (mk_kb [] [("umls_chest_pain", "chest pain"); ("umls_pain", "pain")] [])
               = [] ++ ("umls_chest_pain", "chest pain") :: [("umls_pain", "pain")])
    by reflexivity.
  assert (H2 : Forall (λ it, mention_matches (lower (strip "Pain")) it = false) [])
    by constructor.
  assert (H3 : mention_matches (lower (strip "Pain")) ("umls_chest_pain", "chest pain") = true)
    by reflexivity.
  split; [done|].
  exact (resolve_earliest_match _ (mk_ent "Pain" "SYMPTOM") [] _ _ H1 H2 H3).
Defined.

(** X16: on a loaded knowledge base [extract_symptoms] returns one slug for
    every entity labelled [SYMPTOM], in order, and nothing for the others;
    each is a well-formed ASCII slug, and is a key of the symptom table or
    the mention's own slug. *)
Theorem extract_symptoms_slugs (rows : list row) (ents : list ent) :
  let st := load_prolog_from_xlsx rows empty_kb in
  length (extract_symptoms st ents) = length (filter (λ e, label_ e = "SYMPTOM") ents)
  ∧ Forall (λ s, is_slug s ∧ ascii_only s) (extract_symptoms st ents)
  ∧ (∀ i s, extract_symptoms st ents !! i = Some s →
       ∃ e, filter (λ e, label_ e = "SYMPTOM") ents !! i = Some e
            ∧ (s ∈ (symptom_label_map st).*1 ∨ s = slugify (lower (strip (text e))))).
Proof.
  intros st.
  assert (Hkey : ∀ k, k ∈ (symptom_label_map st).*1 → is_slug k ∧ as_pystr k = k).
  { intros k Hk. destruct (load_maps rows empty_kb) as [_ Hs]. fold st in Hs.
    rewrite Hs in Hk. apply keys_assign_all in Hk as [Hnil|Hk];
      [by apply elem_of_nil in Hnil|].
    apply list_elem_of_fmap in Hk as (raw & -> & _). apply slugify_shape. }
  assert (Hres : ∀ e, (resolve st e ∈ (symptom_label_map st).*1
                       ∨ resolve st e = slugify (lower (strip (text e))))
                      ∧ is_slug (resolve st e) ∧ ascii_only (resolve st e)).
  { intros e. destruct (resolve_cases st e) as [(item & Hin & _ & Hr)|[_ Hr]].
    - assert (Hk : item.1 ∈ (symptom_label_map st).*1)
        by (apply list_elem_of_fmap; eauto).
      destruct (Hkey _ Hk) as [Hslug Hascii]. rewrite Hr, Hascii.
      split_and!; [by left | done | done].
    - rewrite Hr. split_and!; [by right | apply slugify_shape..]. }
  unfold extract_symptoms. split_and!.
  - apply length_fmap.
  - apply Forall_fmap, Forall_forall. intros e _. apply Hres.
  - intros i s. rewrite list_lookup_fmap. intros (e & He & ->)%fmap_Some.
    exists e. split; [done|]. apply Hres.
Qed.

(** X17: a mention of white space only matches every entry, so it resolves
    to the first symptom of the table; with an empty table it resolves to
    the bare marker. *)
Theorem resolve_blank_mention (st : kb) (e : ent) :
  strip (text e) = EmptyString →
  resolve st e = match symptom_label_map st with
                 | [] => "umls_"
                 | item :: _ => as_pystr item.1
                 end.
Proof.
  intros He. unfold resolve. rewrite He. cbn [lower smap].
  rewrite first_match_unfold. destruct (symptom_label_map st) as [|item d]; [done|].
  unfold mention_matches. by rewrite contains_empty.
Qed.

Lemma resolve_blank_mention_witness :
  strip (text (mk_ent "  " "SYMPTOM")) = EmptyString
  ∧ resolve (mk_kb [] [("umls_fever", "fever")] []) (mk_ent "  " "SYMPTOM") = "umls_fever".
Proof.
  assert (H : strip (text (mk_ent "  " "SYMPTOM")) = EmptyString) by reflexivity.
  split; [exact H|].
  exact (resolve_blank_mention (mk_kb [] [("umls_fever", "fever")] []) _ H).
Defined.

(** X18: a mention that is a registered label of the symptom table, case
    and outer white space apart, is never sent to the fallback: it resolves
    to the key of an entry it matches. *)
Theorem resolve_registered_label (st : kb) (e : ent) (slug full_label : string) :
  (slug, full_label) ∈ symptom_label_map st →
  lower (strip (text e)) = lower (as_pystr full_label) →
  ∃ item, item ∈ symptom_label_map st
          ∧ mention_matches (lower (strip (text e))) item = true
          ∧ resolve st e = as_pystr item.1.
Proof.
  intros Hin Heq.
  assert (Hm : mention_matches (lower (strip (text e))) (slug, full_label) = true).
  { unfold mention_matches. simpl. by rewrite Heq, contains_refl. }
  destruct (first_match_found _ _ _ Hin Hm) as [k Hk].
  destruct (first_match_Some _ _ _ Hk) as (item & ? & ? & ->).
  exists item. split_and!; [done | done |]. unfold resolve. by rewrite Hk.
Qed.

Lemma resolve_registered_label_witness :
  (("umls_fever", "Fever") ∈ symptom_label_map (mk_kb [] [("umls_fever", "Fever")] [])
   ∧ lower (strip (text (mk_ent " FEVER" "SYMPTOM"))) = lower (as_pystr "Fever"))
  ∧ ∃ item, item ∈ [("umls_fever", "Fever")]
            ∧ mention_matches (lower (strip " FEVER")) item = true
            ∧ resolve (mk_kb [] [("umls_fever", "Fever")] []) (mk_ent " FEVER" "SYMPTOM")
              = as_pystr item.1.
Proof.
  assert (H1 : ("umls_fever", "Fever")
               ∈ symptom_label_map (mk_kb [] [("umls_fever", "Fever")] [])) by left.
  assert (H2 : lower (strip (text (mk_ent " FEVER" "SYMPTOM"))) = lower (as_pystr "Fever"))
    by reflexivity.
  split; [done|].
  exact (resolve_registered_label _ (mk_ent " FEVER" "SYMPTOM") _ _ H1 H2).
Defined.

(** ** More on the abductive query *)

Section abduction.

Implicit Types (fs : list (string * string)) (symptoms : list string).

Lemma known_iff fs s : known fs s ↔ ∃ d, (d, s) ∈ fs.
Proof.
  unfold known. split.
  - intros Hne. destruct (has_symptom_query fs s) as [|d ds] eqn:Hq; [done|].
    exists d. apply elem_of_query. rewrite Hq. left.
  - intros [d Hd%elem_of_query] Hq. rewrite Hq in Hd. by apply elem_of_nil in Hd.
Qed.

Lemma get_abductive fs symptoms d :
  Dict.get d (abductive_explanation fs symptoms)
  = if decide (matched fs symptoms d = ∅) then None else Some (matched fs symptoms d).
Proof.
  rewrite abductive_explanation_unfold, get_abduce_from.
  destruct (decide _); [done|]. simpl. f_equal. set_solver.
Qed.

Lemma matched_ext fs fs' symptoms d :
  (∀ f, f ∈ fs ↔ f ∈ fs') → matched fs symptoms d = matched fs' symptoms d.
Proof.
  intros Hfs. apply set_eq. intros s. rewrite !elem_of_matched, Hfs. done.
Qed.

Lemma matched_app fs l l' d : matched fs (l ++ l') d = matched fs l d ∪ matched fs l' d.
Proof.
  apply set_eq. intros s. rewrite elem_of_union, !elem_of_matched, elem_of_app. tauto.
Qed.

Lemma abductive_nil_iff fs symptoms :
  abductive_explanation fs symptoms = []
  ↔ Forall (λ s, ¬ known fs (as_pystr s)) symptoms.
Proof.
  rewrite Forall_forall. split.
  - intros HE s Hs [d Hd]%known_iff.
    pose proof (get_abductive fs symptoms d) as Hget. rewrite HE in Hget.
    destruct (decide _) as [He|]; [|done].
    assert (s ∈ matched fs symptoms d) by by apply elem_of_matched. set_solver.
  - intros Hall. destruct (abductive_explanation fs symptoms) as [|[d S] E] eqn:HE; [done|].
    pose proof (get_abductive fs symptoms d) as Hget. rewrite HE in Hget.
    simpl in Hget. rewrite decide_True in Hget by done.
    destruct (decide _) as [|Hne]; [done|].
    apply set_choose_L in Hne as [s [Hs Hd]%elem_of_matched].
    destruct (Hall s Hs). apply known_iff. eauto.
Qed.

Lemma sorted_desc_nil_iff l : sorted_desc l = [] ↔ l = [].
Proof.
  split; [|by intros ->]. intros Hs.
  apply Permutation_nil. by rewrite <-Hs, sorted_desc_perm.
Qed.

End abduction.

(** X19: the explanation of a disease depends on which clauses the store
    holds, not on their order or on how often each is asserted: two stores
    with the same clauses give every disease the same entry. *)
Theorem abduction_ignores_clause_order
    (fs fs' : list (string * string)) (symptoms : list string) :
  (∀ f, f ∈ fs ↔ f ∈ fs') →
  ∀ d, Dict.get d (abductive_explanation fs symptoms)
       = Dict.get d (abductive_explanation fs' symptoms).
Proof.
  intros Hfs d. by rewrite !get_abductive, (matched_ext fs fs').
Qed.

Lemma abduction_ignores_clause_order_witness :
  (∀ f, f ∈ [("umls_flu", "umls_fever"); ("umls_cold", "umls_fever")]
        ↔ f ∈ [("umls_cold", "umls_fever"); ("umls_flu", "umls_fever");
               ("umls_cold", "umls_fever")])
  ∧ Dict.get "umls_flu"
      (abductive_explanation [("umls_flu", "umls_fever"); ("umls_cold", "umls_fever")]
         ["umls_fever"])
    = Dict.get "umls_flu"
        (abductive_explanation
           [("umls_cold", "umls_fever"); ("umls_flu", "umls_fever");
            ("umls_cold", "umls_fever")] ["umls_fever"]).
Proof.
  assert (H : ∀ f, f ∈ [("umls_flu", "umls_fever"); ("umls_cold", "umls_fever")]
                   ↔ f ∈ [("umls_cold", "umls_fever"); ("umls_flu", "umls_fever");
                          ("umls_cold", "umls_fever")]).
  { intros f. rewrite !elem_of_cons. pose proof (elem_of_nil f). tauto. }
  split; [exact H|].
  exact (abduction_ignores_clause_order _ _ ["umls_fever"] H "umls_flu").
Defined.

(** X20: observing more never loses an explanation: a disease with an
    entry keeps one when further symptoms are observed, with at least the
    symptoms it had. *)
Theorem abduction_monotone
    (fs : list (string * string)) (symptoms more : list string) (d : string)
    (S : gset string) :
  Dict.get d (abductive_explanation fs symptoms) = Some S →
  ∃ S', Dict.get d (abductive_explanation fs (symptoms ++ more)) = Some S' ∧ S ⊆ S'.
Proof.
  rewrite !get_abductive, matched_app.
  destruct (decide (matched fs symptoms d = ∅)) as [|Hne]; [done|].
  intros [= <-]. rewrite decide_False by set_solver.
  eexists. split; [done|]. set_solver.
Qed.

Lemma abduction_monotone_witness :
  Dict.get "umls_flu" (abductive_explanation [("umls_flu", "umls_fever")] ["umls_fever"])
  = Some {[ "umls_fever" ]}
  ∧ ∃ S', Dict.get "umls_flu"
            (abductive_explanation [("umls_flu", "umls_fever")]
               (["umls_fever"] ++ ["umls_cough"])) = Some S'
          ∧ ({[ "umls_fever" ]} : gset string) ⊆ S'.
Proof.
  assert (H : Dict.get "umls_flu"
                (abductive_explanation [("umls_flu", "umls_fever")] ["umls_fever"])
              = Some {[ "umls_fever" ]}) by (vm_compute; reflexivity).
  split; [exact H|].
  exact (abduction_monotone _ _ ["umls_cough"] _ _ H).
Defined.

(** X21: the report is the notice that no disease explains anything exactly
    when the store has a clause for none of the observed symptoms; in
    particular with an empty store, whatever is observed. *)
Theorem no_diseases_iff_nothing_known (fs : list (string * string)) (symptoms : list string) :
  (show_differential (differential_diagnosis fs symptoms) symptoms = NoDiseases
   ↔ Forall (λ s, ¬ known fs (as_pystr s)) symptoms)
  ∧ show_differential (differential_diagnosis [] symptoms) symptoms = NoDiseases.
Proof.
  assert (Hiff : ∀ fs', show_differential (differential_diagnosis fs' symptoms) symptoms
                        = NoDiseases
                        ↔ Forall (λ s, ¬ known fs' (as_pystr s)) symptoms).
  { intros fs'. rewrite <-abductive_nil_iff. unfold differential_diagnosis.
    rewrite <-(sorted_desc_nil_iff (abductive_explanation fs' symptoms)).
    by destruct (sorted_desc _). }
  split; [apply Hiff|]. apply Hiff, Forall_forall.
  intros s _ [d Hd]%known_iff. by apply elem_of_nil in Hd.
Qed.

(** ** More on the ranking and the report *)

Section ranking_more.

Implicit Types (x y e : string * gset string) (l ranked : list (string * gset string)).
Implicit Types (fs : list (string * string)) (symptoms : list string).

Lemma insert_desc_head x l : HdRel covers_no_less x l → insert_desc x l = x :: l.
Proof.
  destruct l as [|y l]; [done|]. intros Hhd. apply HdRel_inv in Hhd.
  simpl. by rewrite decide_True.
Qed.

Lemma sorted_desc_fixed l : Sorted covers_no_less l → sorted_desc l = l.
Proof.
  induction 1 as [|x l Hl IH Hhd]; simpl; [done|].
  rewrite IH. by apply insert_desc_head.
Qed.

Lemma Sorted_lookup_le l i j x y :
  Sorted covers_no_less l → i ≤ j → l !! i = Some x → l !! j = Some y →
  size y.2 ≤ size x.2.
Proof.
  intros Hs Hij Hx. revert y. induction Hij as [|j Hij IH]; intros y Hy.
  - rewrite Hx in Hy. by injection Hy as ->.
  - destruct (lookup_lt_is_Some_2 l j) as [z Hz].
    { apply lookup_lt_Some in Hy. lia. }
    specialize (IH z Hz).
    pose proof (Sorted_adjacent l j z y Hs Hz Hy) as Hadj. unfold covers_no_less in Hadj. lia.
Qed.

Lemma ranked_entry_le_length fs symptoms d S :
  (d, S) ∈ differential_diagnosis fs symptoms → 1 ≤ size S ≤ length symptoms.
Proof.
  intros HS. split.
  - apply ranked_entry in HS as [_ Hne].
    assert (size S ≠ 0); [|lia].
    apply size_non_empty_iff. by intros ?%leibniz_equiv.
  - etrans; [by eapply ranked_entry_size | apply size_list_to_set_le].
Qed.



Lemma percent_eq_100 (S : gset string) symptoms :
  symptoms ≠ [] → (percent S symptoms == 100)%Q ↔ size S = length symptoms.
Proof.
  intros Hne. destruct symptoms as [|s l]; [done|].
  unfold percent, Qeq. cbn [Qnum Qden].
  assert (Z.pos (Pos.of_nat (length (s :: l))) = Z.of_nat (length (s :: l))) as ->.
  { by rewrite <-(positive_nat_Z (Pos.of_nat _)), Nat2Pos.id. }
  lia.
Qed.

Lemma percent_range (S : gset string) symptoms :
  1 ≤ size S ≤ length symptoms → (0 < percent S symptoms ∧ percent S symptoms <= 100)%Q.
Proof.
  intros [Hlo Hhi]. destruct symptoms as [|s l]; [simpl in Hhi; lia|].
  unfold percent, Qlt, Qle. cbn [Qnum Qden].
  assert (Z.pos (Pos.of_nat (length (s :: l))) = Z.of_nat (length (s :: l))) as ->.
  { by rewrite <-(positive_nat_Z (Pos.of_nat _)), Nat2Pos.id. }
  lia.
Qed.

End ranking_more.

(** X22: a sequence of entries that already stands in non-increasing order
    of matched-set size is returned unchanged by the sort; so ranking a
    ranking again changes nothing. *)
Theorem sorted_desc_keeps_ranked (l : list (string * gset string)) :
  Sorted covers_no_less l → sorted_desc l = l ∧ sorted_desc (sorted_desc l) = sorted_desc l.
Proof.
  intros Hl. split; [by apply sorted_desc_fixed|].
  apply sorted_desc_fixed, sorted_desc_Sorted.
Qed.

Lemma sorted_desc_keeps_ranked_witness :
  Sorted covers_no_less
    [("umls_flu", ({[ "umls_fever"; "umls_cough" ]} : gset string));
     ("umls_cold", {[ "umls_cough" ]})]
  ∧ sorted_desc [("umls_flu", {[ "umls_fever"; "umls_cough" ]});
                 ("umls_cold", {[ "umls_cough" ]})]
    = [("umls_flu", {[ "umls_fever"; "umls_cough" ]}); ("umls_cold", {[ "umls_cough" ]})].
Proof.
  assert (H : Sorted covers_no_less
    [("umls_flu", ({[ "umls_fever"; "umls_cough" ]} : gset string));
     ("umls_cold", {[ "umls_cough" ]})]).
  { apply Sorted_cons; [apply Sorted_cons; [apply Sorted_nil | apply HdRel_nil]|].
    apply HdRel_cons. unfold covers_no_less. vm_compute. lia. }
  split; [exact H|]. exact (proj1 (sorted_desc_keeps_ranked _ H)).
Defined.

(** X23: the most plausible diseases stand at the top of the ranking: every
    entry ranked above a most plausible one is most plausible too, so their
    ranks are 1, 2, ... without a gap. *)
Theorem top_is_a_prefix (fs : list (string * string)) (symptoms : list string)
    (r : nat) (d : string) (S : gset string) (i : nat) (e : string * gset string) :
  let ranked := differential_diagnosis fs symptoms in
  (r, d, S) ∈ top ranked symptoms → i + 1 ≤ r → ranked !! i = Some e →
  (i + 1, e.1, e.2) ∈ top ranked symptoms.
Proof.
  intros ranked (j & -> & Hj & Hsz)%elem_of_top Hij He.
  apply elem_of_top. exists i. destruct e as [d' S']. split_and!; [done | done |].
  simpl. assert (Hle : size S ≤ size S').
  { apply (Sorted_lookup_le ranked i j (d', S') (d, S)); [apply sorted_desc_Sorted | lia | done..]. }
  assert (Hin : (d', S') ∈ ranked) by by eapply list_elem_of_lookup_2.
  apply ranked_entry_le_length in Hin. lia.
Qed.

Lemma top_is_a_prefix_witness :
  ((2, "umls_cold", ({[ "umls_cough" ]} : gset string))
     ∈ top (differential_diagnosis [("umls_flu", "umls_cough"); ("umls_cold", "umls_cough")]
              ["umls_cough"]) ["umls_cough"]
   ∧ 0 + 1 ≤ 2
   ∧ differential_diagnosis [("umls_flu", "umls_cough"); ("umls_cold", "umls_cough")]
       ["umls_cough"] !! 0 = Some ("umls_flu", {[ "umls_cough" ]}))
  ∧ (0 + 1, "umls_flu", ({[ "umls_cough" ]} : gset string))
      ∈ top (differential_diagnosis [("umls_flu", "umls_cough"); ("umls_cold", "umls_cough")]
               ["umls_cough"]) ["umls_cough"].
Proof.
  assert (H1 : (2, "umls_cold", ({[ "umls_cough" ]} : gset string))
     ∈ top (differential_diagnosis [("umls_flu", "umls_cough"); ("umls_cold", "umls_cough")]
              ["umls_cough"]) ["umls_cough"]).
  { apply elem_of_top. exists 1. vm_compute. done. }
  assert (H2 : 0 + 1 ≤ 2) by lia.
  assert (H3 : differential_diagnosis [("umls_flu", "umls_cough"); ("umls_cold", "umls_cough")]
       ["umls_cough"] !! 0 = Some ("umls_flu", {[ "umls_cough" ]})) by (vm_compute; reflexivity).
  split; [exact (conj H1 (conj H2 H3))|].
  exact (top_is_a_prefix _ _ 2 "umls_cold" _ 0 ("umls_flu", {[ "umls_cough" ]}) H1 H2 H3).
Defined.


(** X25: when something was observed, an entry is listed as most plausible,
    where the percentage is printed as the constant 100.0, exactly when its
    computed percentage is 100. *)
Theorem top_iff_percent_100 (ranked : list (string * gset string)) (symptoms : list string)
    (i : nat) (d : string) (S : gset string) :
  symptoms ≠ [] → ranked !! i = Some (d, S) →
  (i + 1, d, S) ∈ top ranked symptoms ↔ (percent S symptoms == 100)%Q.
Proof.
  intros Hne Hi. rewrite percent_eq_100, elem_of_top by done. split.
  - intros (j & Hj & _ & Hsz). done.
  - intros Hsz. exists i. done.
Qed.

Lemma top_iff_percent_100_witness :
  (["umls_cough"] ≠ []
   ∧ [("umls_cold", ({[ "umls_cough" ]} : gset string))] !! 0
     = Some ("umls_cold", {[ "umls_cough" ]}))
  ∧ ((0 + 1, "umls_cold", ({[ "umls_cough" ]} : gset string))
       ∈ top [("umls_cold", {[ "umls_cough" ]})] ["umls_cough"]
     ↔ (percent {[ "umls_cough" ]} ["umls_cough"] == 100)%Q).
Proof.
  assert (H1 : ["umls_cough"] ≠ []) by discriminate.
  assert (H2 : [("umls_cold", ({[ "umls_cough" ]} : gset string))] !! 0
               = Some ("umls_cold", {[ "umls_cough" ]})) by reflexivity.
  split; [done|].
  exact (top_iff_percent_100 _ _ 0 "umls_cold" _ H1 H2).
Defined.

(** X26: every line of the table of a diagnosis shows a disease that
    matches at least one and at most all of the mentions, so its percentage
    is above 0 and at most 100, and the symptoms it lists were all observed;
    the table has one line for every ranked disease. *)
Theorem table_lines_in_range (fs : list (string * string)) (symptoms : list string)
    (ln : table_line) :
  let ranked := differential_diagnosis fs symptoms in
  ln ∈ table ranked symptoms →
  length (table ranked symptoms) = length ranked
  ∧ 1 ≤ line_matched ln ≤ line_total ln
  ∧ line_matched ln = size (line_syms ln) ∧ line_total ln = length symptoms
  ∧ (0 < line_percent ln ∧ line_percent ln <= 100)%Q
  ∧ (∀ s, s ∈ line_syms ln → s ∈ symptoms).
Proof.
  intros ranked Hln. unfold table in *.
  apply elem_of_lookup_imap in Hln as (i & [d S] & -> & Hi).
  assert (Hin : (d, S) ∈ ranked) by by eapply list_elem_of_lookup_2.
  pose proof (ranked_entry_le_length _ _ _ _ Hin) as Hsz.
  cbn [line_matched line_total line_syms line_percent fst snd].
  split_and!; [apply length_imap | lia | lia | done | done | by apply percent_range..|].
  intros s Hs. apply ranked_entry in Hin as [-> _].
  by apply elem_of_matched in Hs as [? _].
Qed.

Lemma table_lines_in_range_witness :
  mk_line 1 "umls_cold" 1 2 (100 # 2) {[ "umls_cough" ]}
    ∈ table (differential_diagnosis [("umls_cold", "umls_cough")] ["umls_cough"; "umls_x"])
            ["umls_cough"; "umls_x"]
  ∧ 1 ≤ line_matched (mk_line 1 "umls_cold" 1 2 (100 # 2) {[ "umls_cough" ]})
      ≤ line_total (mk_line 1 "umls_cold" 1 2 (100 # 2) {[ "umls_cough" ]}).
Proof.
  assert (H : mk_line 1 "umls_cold" 1 2 (100 # 2) {[ "umls_cough" ]}
    ∈ table (differential_diagnosis [("umls_cold", "umls_cough")] ["umls_cough"; "umls_x"])
            ["umls_cough"; "umls_x"]).
  { vm_compute. left. }
  split; [exact H|].
  exact (proj1 (proj2 (table_lines_in_range _ _ _ H))).
Defined.

(** ** The patterns of the entity ruler *)

Section ruler.

Implicit Types (rows : list row) (raw p : string).

Lemma app_assoc_s (a b c : string) : (a +:+ b) +:+ c = a +:+ b +:+ c.
Proof.
  induction a as [|x a IH]; [done|].
  change (String x ((a +:+ b) +:+ c) = String x (a +:+ b +:+ c)). by rewrite IH.
Qed.

Lemma smap_app f (a b : string) : smap f (a +:+ b) = smap f a +:+ smap f b.
Proof.
  induction a as [|x a IH]; [done|].
  change (String (f x) (smap f (a +:+ b)) = String (f x) (smap f a +:+ smap f b)).
  by rewrite IH.
Qed.

Lemma lstrip_suffix s : ∃ a, s = a +:+ lstrip s.
Proof.
  induction s as [|c s [a IH]]; [by exists EmptyString|]. simpl.
  destruct (is_space c); [|by exists EmptyString].
  exists (String c a). change (String c s = String c (a +:+ lstrip s)). by rewrite <-IH.
Qed.

Lemma rstrip_prefix s : ∃ b, s = rstrip s +:+ b.
Proof.
  induction s as [|c s [b IH]]; [by exists EmptyString|]. simpl.
  destruct (rstrip s) as [|c' r] eqn:Hr.
  - destruct (is_space c).
    + by exists (String c s).
    + exists b. change (String c s = String c (EmptyString +:+ b)). by rewrite <-IH.
  - exists b. change (String c s = String c (String c' r +:+ b)). by rewrite <-IH.
Qed.

Lemma strip_infix s : ∃ a b, s = a +:+ strip s +:+ b.
Proof.
  destruct (lstrip_suffix s) as [a Ha]. destruct (rstrip_prefix (lstrip s)) as [b Hb].
  exists a, b. unfold strip. by rewrite <-Hb.
Qed.

Lemma after_underscore_suffix s label :
  after_underscore s = Some label → ∃ pre, s = pre +:+ label.
Proof.
  revert label. induction s as [|c s IH]; intros label; [done|]. simpl.
  destruct (Ascii.eqb c "_").
  - intros [= ->]. by exists (String c EmptyString).
  - intros [pre ->]%IH. by exists (String c pre).
Qed.

Lemma drop_coded_prefix_suffix s : ∃ pre, s = pre +:+ drop_coded_prefix s.
Proof.
  destruct s as [|c1 [|c2 [|c3 [|c4 [|c5 s]]]]]; try by exists EmptyString.
  cbn [drop_coded_prefix]. destruct (String.eqb _ _); [|by exists EmptyString].
  destruct (after_underscore s) as [label|] eqn:Hl; [|by exists EmptyString].
  apply after_underscore_suffix in Hl as [pre ->].
  by exists (String c1 (String c2 (String c3 (String c4 (String c5 pre))))).
Qed.

Lemma sall_app_r (q : ascii → bool) (a b : string) :
  sall q (a +:+ b) = true → sall q b = true.
Proof. rewrite sall_app. by intros [_ ?]%andb_prop. Qed.

Lemma lower_idem s : lower (lower s) = lower s.
Proof.
  unfold lower. rewrite smap_smap. apply smap_ext.
  intros c. by destruct (lower_char_facts c) as (_ & ? & _).
Qed.

Lemma lower_char_ascii c : is_ascii c = true → is_ascii (lower_char c) = true.
Proof.
  destruct c as [[] [] [] [] [] [] [] []]; vm_compute; first [ discriminate | done ].
Qed.

Lemma symptom_raw_ascii rows raw : raw ∈ symptom_raws rows → sall is_ascii raw = true.
Proof.
  unfold symptom_raws, symptom_raws_of.
  intros (r & (piece & -> & _)%list_elem_of_fmap & _)%list_elem_of_bind.
  apply sall_rstrip, sall_lstrip, sall_sfilter.
Qed.

Lemma elem_of_ruler_pieces p (pieces : list string) (acc : gset string) :
  p ∈ fold_left ruler_add pieces acc
  ↔ p ∈ acc ∨ ∃ piece, piece ∈ pieces
                       ∧ drop_coded_prefix (strip (as_pystr piece)) ≠ EmptyString
                       ∧ p = lower (drop_coded_prefix (strip (as_pystr piece))).
Proof.
  revert acc. induction pieces as [|piece pieces IH]; intros acc; simpl.
  - split; [by left|]. intros [?|(? & ?%elem_of_nil & _)]; done.
  - rewrite IH. unfold ruler_add. setoid_rewrite elem_of_cons.
    destruct (decide (drop_coded_prefix (strip (as_pystr piece)) = EmptyString)) as [He|Hne].
    + naive_solver.
    + rewrite elem_of_union, elem_of_singleton. naive_solver.
Qed.

Lemma elem_of_ruler_rows p rows (acc : gset string) :
  p ∈ fold_left (λ acc r, fold_left ruler_add (split "," (as_pystr (Symptom r))) acc) rows acc
  ↔ p ∈ acc ∨ ∃ raw, raw ∈ symptom_raws rows
                     ∧ drop_coded_prefix raw ≠ EmptyString
                     ∧ p = lower (drop_coded_prefix raw).
Proof.
  revert acc. induction rows as [|r rows IH]; intros acc; cbn [fold_left].
  - split; [by left|]. intros [?|(? & ?%elem_of_nil & _)]; done.
  - rewrite IH, elem_of_ruler_pieces. unfold symptom_raws. rewrite bind_cons.
    fold (symptom_raws rows). setoid_rewrite elem_of_app. unfold symptom_raws_of.
    setoid_rewrite list_elem_of_fmap. naive_solver.
Qed.

End ruler.

(** X27: the patterns of the entity ruler are the lower-cased labels of the
    symptom pieces of the sheet, each without its coded prefix up to the
    first underscore, the pieces left with nothing apart; every pattern is
    non-empty, ASCII and in lower case. *)
Theorem ruler_patterns_spec (rows : list row) (p : string) :
  (p ∈ load_symptoms_for_ruler rows
   ↔ ∃ raw, raw ∈ symptom_raws rows ∧ drop_coded_prefix raw ≠ EmptyString
            ∧ p = lower (drop_coded_prefix raw))
  ∧ (p ∈ load_symptoms_for_ruler rows →
     p ≠ EmptyString ∧ lower p = p ∧ sall is_ascii p = true).
Proof.
  assert (Hiff : p ∈ load_symptoms_for_ruler rows
   ↔ ∃ raw, raw ∈ symptom_raws rows ∧ drop_coded_prefix raw ≠ EmptyString
            ∧ p = lower (drop_coded_prefix raw)).
  { unfold load_symptoms_for_ruler. rewrite elem_of_ruler_rows. set_solver. }
  split; [done|]. intros (raw & Hraw & Hne & ->)%Hiff. split_and!.
  - unfold lower. by rewrite smap_empty.
  - apply lower_idem.
  - apply (sall_smap_impl is_ascii); [apply lower_char_ascii|].
    destruct (drop_coded_prefix_suffix raw) as [pre Hpre].
    apply (sall_app_r _ pre). rewrite <-Hpre. by eapply symptom_raw_ascii.
Qed.

(** X28: a pattern of the entity ruler, met again as a mention, is resolved
    to a symptom of the knowledge base and not to the fallback, when the raw
    label it was made from is the one the symptom table ends with for its
    slug. *)
Theorem ruler_pattern_resolves (rows : list row) (raw : string) :
  raw ∈ symptom_raws rows →
  last_label (slugify raw) (symptom_raws rows) = Some raw →
  let st := load_prolog_from_xlsx rows empty_kb in
  let p := lower (drop_coded_prefix raw) in
  resolve st (mk_ent p "SYMPTOM") ∈ (symptom_label_map st).*1
  ∧ first_match (lower (strip p)) (symptom_label_map st) ≠ None.
Proof.
  intros Hraw Hlast st p.
  destruct (load_maps rows empty_kb) as [_ Hs]. fold st in Hs. simpl in Hs.
  assert (Hnd : NoDup (symptom_label_map st).*1).
  { rewrite Hs, keys_assign_all_order. simpl. apply NoDup_filter, NoDup_dedup_first. }
  assert (Hitem : (slugify raw, raw) ∈ symptom_label_map st).
  { apply get_elem_of; [done|]. by rewrite Hs, get_assign_all, Hlast. }
  assert (Hm : mention_matches (lower (strip p)) (slugify raw, raw) = true).
  { unfold mention_matches. cbn [fst snd].
    assert (as_pystr raw = raw) as -> by (apply sfilter_id; by eapply symptom_raw_ascii).
    assert (Hp : lower (strip p) = strip p).
    { unfold lower at 1. rewrite <-strip_smap
        by (intros c; by destruct (lower_char_facts c) as (? & _)).
      fold (lower p). unfold p. by rewrite lower_idem. }
    rewrite Hp. destruct (drop_coded_prefix_suffix raw) as [pre Hpre].
    destruct (strip_infix p) as (a & b & Hab).
    assert (Hlow : lower raw = (lower pre +:+ a) +:+ strip p +:+ b).
    { rewrite Hpre at 1. unfold lower at 1. rewrite smap_app. fold (lower pre).
      fold (lower (drop_coded_prefix raw)). fold p. rewrite Hab at 1.
      by rewrite app_assoc_s. }
    by rewrite Hlow, contains_suffix. }
  destruct (first_match_found _ _ _ Hitem Hm) as [k Hk].
  split; [|by rewrite Hk].
  unfold resolve. cbn [text]. rewrite Hk.
  apply first_match_Some in Hk as (item & Hin & _ & ->).
  assert (Hkey : item.1 ∈ (symptom_label_map st).*1) by (apply list_elem_of_fmap; eauto).
  assert (Hascii : as_pystr item.1 = item.1).
  { rewrite Hs in Hkey. apply keys_assign_all in Hkey as [Hnil|Hkey];
      [by apply elem_of_nil in Hnil|].
    apply list_elem_of_fmap in Hkey as (raw' & -> & _). apply as_pystr_slugify. }
  by rewrite Hascii.
Qed.

Lemma ruler_pattern_resolves_witness :
  ("UMLS:C0010200_Cough" ∈ symptom_raws [mk_row "Cold" "UMLS:C0010200_Cough"]
   ∧ last_label (slugify "UMLS:C0010200_Cough")
       (symptom_raws [mk_row "Cold" "UMLS:C0010200_Cough"]) = Some "UMLS:C0010200_Cough")
  ∧ resolve (load_prolog_from_xlsx [mk_row "Cold" "UMLS:C0010200_Cough"] empty_kb)
            (mk_ent (lower (drop_coded_prefix "UMLS:C0010200_Cough")) "SYMPTOM")
    ∈ (symptom_label_map
         (load_prolog_from_xlsx [mk_row "Cold" "UMLS:C0010200_Cough"] empty_kb)).*1.
Proof.
  assert (H1 : "UMLS:C0010200_Cough" ∈ symptom_raws [mk_row "Cold" "UMLS:C0010200_Cough"])
    by left.
  assert (H2 : last_label (slugify "UMLS:C0010200_Cough")
       (symptom_raws [mk_row "Cold" "UMLS:C0010200_Cough"]) = Some "UMLS:C0010200_Cough")
    by reflexivity.
  split; [exact (conj H1 H2)|].
  exact (proj1 (ruler_pattern_resolves _ _ H1 H2)).
Defined.
